(** * A deterministic single-tape Turing machine: the engine of
      [constants.py] and [TuringMachine.py], embedded and verified.

    Layout: the pieces of the Python runtime the engine relies on
    (strings, [str.split], list indexing, exceptions), then
    [constants.py], then the class [TuringMachine] over a store of list
    objects, then the vocabulary of the statements, then the results. *)

From Stdlib Require Import String Ascii ZArith Lia.
From stdpp Require Import gmap list sorting.

Local Open Scope Z_scope.

(** ** Python strings

    A Python [str] is a sequence of Unicode code points; a character is
    a one-element string. *)

Abbreviation str := (list N).

(** A literal, code point by code point (ASCII and Latin-1 literals). *)
Fixpoint py (s : string) : str :=
  match s with
  | EmptyString => []
  | String a s' => N_of_ascii a :: py s'
  end.

(** [str.isspace] on one character, the table CPython uses for
    [str.strip()] and for [str.split()] without a separator. *)
Definition isspace (c : N) : bool :=
  (((9 <=? c) && (c <=? 13)) || ((28 <=? c) && (c <=? 32))
   || (c =? 133) || (c =? 160) || (c =? 5760)
   || ((8192 <=? c) && (c <=? 8202))
   || (c =? 8232) || (c =? 8233) || (c =? 8239) || (c =? 8287)
   || (c =? 12288))%N.

Fixpoint lstrip (s : str) : str :=
  match s with
  | c :: s' => if isspace c then lstrip s' else s
  | [] => []
  end.

Definition rstrip (s : str) : str := rev (lstrip (rev s)).

(** [s.strip()] *)
Definition strip (s : str) : str := rstrip (lstrip s).

(** The scanning loop of [s.split()]: [cur] holds the characters of the
    word being read, latest first. *)
Fixpoint split_from (cur : str) (s : str) : list str :=
  match s with
  | [] => match cur with [] => [] | _ => [rev cur] end
  | c :: s' =>
      if isspace c
      then match cur with
           | [] => split_from [] s'
           | _ => rev cur :: split_from [] s'
           end
      else split_from (c :: cur) s'
  end.

(** [s.split()] *)
Definition split (s : str) : list str := split_from [] s.

(** ** Python exceptions and results *)

Inductive exn :=
| IndexError
| KeyError (key : str)
| ValueError
| InvalidDirectionError
| InvalidStateError (state_name : str)
| NoTransitionError (symbol : str)
| InvalidTransitionError (state symbol : str)
| TypeError
| DanglingReference.
(** [DanglingReference] is no Python exception: it is what an operation
    on a reference outside the store yields, so that every operation is
    total. No store built by the operations below contains one. *)

Inductive outcome (A : Type) :=
| Ok (a : A)
| Raise (e : exn).
Arguments Ok {A} a.
Arguments Raise {A} e.

(** ** Python list indexing

    [l[i]] accepts [-len(l) <= i < len(l)]; a negative index counts
    from the end. *)
Definition py_index (len : nat) (i : Z) : option nat :=
  if (0 <=? i) && (i <? Z.of_nat len) then Some (Z.to_nat i)
  else if (- Z.of_nat len <=? i) && (i <? 0) then Some (Z.to_nat (Z.of_nat len + i))
  else None.

(** * constants.py *)

Definition BLANK_SYMBOL : str := py "_".
Definition LEFT_END : Z := 0.
Definition MAX_HISTORY_LEN : nat := 1000.

(** The members of the enumeration that a transition can carry. The
    two table-valued members, [ALL] and [_VALUE_INT_MAPPING], are the
    definitions [ALL] and [to_int] below. *)
Module Direction.
Inductive t := LEFT | RIGHT | STOP | STAY.

#[global] Instance eq_dec : EqDecision t.
Proof. solve_decision. Defined.

(** [self.value] *)
Definition value (d : t) : str :=
  match d with
  | LEFT => py "<"
  | RIGHT => py ">"
  | STOP => py "!"
  | STAY => py "."
  end.

(** [Direction.ALL.value] *)
Definition ALL : list str := [value LEFT; value RIGHT; value STOP; value STAY].

(** [Direction._VALUE_INT_MAPPING.value[self.value]] *)
Definition to_int (d : t) : Z :=
  match d with
  | LEFT => -1
  | RIGHT => 1
  | STAY => 0
  | STOP => 0
  end.

(** [Direction(v)]: the member whose value is [v]. *)
Definition of_value (v : str) : outcome t :=
  if decide (v = value LEFT) then Ok LEFT
  else if decide (v = value RIGHT) then Ok RIGHT
  else if decide (v = value STOP) then Ok STOP
  else if decide (v = value STAY) then Ok STAY
  else Raise ValueError.
End Direction.

Module Transition.
Record t := mk {
  next_state : str;
  write_symbol : str;
  direction : Direction.t
}.

(** [f'{self.write_symbol} {self.next_state} {self.direction.value}'] *)
Definition to_str (self : t) : str :=
  write_symbol self ++ py " " ++ next_state self ++ py " "
    ++ Direction.value (direction self).

Definition from_str (data : str) : outcome t :=
  match split (strip data) with
  | [symbol; state; direction] =>
      if bool_decide (direction ∈ Direction.ALL) then
        match Direction.of_value direction with
        | Ok direction =>
            Ok {| next_state := state; write_symbol := symbol;
                  direction := direction |}
        | Raise e => Raise e
        end
      else Raise InvalidDirectionError
  | _ => Raise ValueError
  end.
End Transition.

Module StateInfo.
(** [tape] is a reference to a list object of the store. *)
Record t := mk {
  current_state : str;
  head_position : Z;
  tape : nat;
  step_count : Z
}.
End StateInfo.

(** * TuringMachine.py *)

(** ** The store

    Tape lists are mutated in place ([tape[i] = x], [insert], [append])
    and handed around by reference ([set_tape] keeps the caller's list,
    snapshots keep what [copy()] returned), so they live in a store of
    list objects; a reference is an index into it. The history list, the
    table and the symbol set never leave the machine and are values. *)

Abbreviation store := (list (list str)).

Module TuringMachine.
Record t := mk {
  current_state : str;
  states : gmap str (gmap str Transition.t);
  tape : nat;
  head_position : Z;
  step_count : Z;
  saved_state : option StateInfo.t;
  symbols : gset str;
  history : list StateInfo.t
}.

(** The store together with the machine object [self]. *)
Record world := World { heap : store; self : t }.

(** *** Computations: state passing, with exceptions that keep the
    state reached so far *)

Definition M (A : Type) : Type := world → outcome A * world.

Definition ret {A} (a : A) : M A := λ w, (Ok a, w).

Definition bind {A B} (c : M A) (k : A → M B) : M B :=
  λ w, match c w with
       | (Ok a, w') => k a w'
       | (Raise e, w') => (Raise e, w')
       end.

Definition raise {A} (e : exn) : M A := λ w, (Raise e, w).

Notation "'let*' x ':=' c 'in' k" := (bind c (λ x, k))
  (at level 10, x binder, c at level 100, k at level 200).
Notation "c1 ';;;' c2" := (bind c1 (λ _, c2))
  (at level 100, c2 at level 200, right associativity).

(** Attribute reads and writes on [self]. *)
Definition attr {A} (f : t → A) : M A := λ w, (Ok (f (self w)), w).

Definition update (f : t → t) : M unit :=
  λ w, (Ok tt, {| heap := heap w; self := f (self w) |}).

Definition with_current_state (v : str) (m : t) : t :=
  mk v (states m) (tape m) (head_position m) (step_count m)
     (saved_state m) (symbols m) (history m).
Definition with_states (v : gmap str (gmap str Transition.t)) (m : t) : t :=
  mk (current_state m) v (tape m) (head_position m) (step_count m)
     (saved_state m) (symbols m) (history m).
Definition with_tape (v : nat) (m : t) : t :=
  mk (current_state m) (states m) v (head_position m) (step_count m)
     (saved_state m) (symbols m) (history m).
Definition with_head_position (v : Z) (m : t) : t :=
  mk (current_state m) (states m) (tape m) v (step_count m)
     (saved_state m) (symbols m) (history m).
Definition with_step_count (v : Z) (m : t) : t :=
  mk (current_state m) (states m) (tape m) (head_position m) v
     (saved_state m) (symbols m) (history m).
Definition with_saved_state (v : option StateInfo.t) (m : t) : t :=
  mk (current_state m) (states m) (tape m) (head_position m) (step_count m)
     v (symbols m) (history m).
Definition with_symbols (v : gset str) (m : t) : t :=
  mk (current_state m) (states m) (tape m) (head_position m) (step_count m)
     (saved_state m) v (history m).
Definition with_history (v : list StateInfo.t) (m : t) : t :=
  mk (current_state m) (states m) (tape m) (head_position m) (step_count m)
     (saved_state m) (symbols m) v.

Definition set_current_state (v : str) : M unit := update (with_current_state v).
Definition set_states (v : gmap str (gmap str Transition.t)) : M unit :=
  update (with_states v).
Definition set_tape_ref (v : nat) : M unit := update (with_tape v).
Definition set_head_position (v : Z) : M unit := update (with_head_position v).
Definition set_step_count (v : Z) : M unit := update (with_step_count v).
Definition set_saved_state (v : option StateInfo.t) : M unit :=
  update (with_saved_state v).
Definition set_symbols (v : gset str) : M unit := update (with_symbols v).
Definition set_history (v : list StateInfo.t) : M unit := update (with_history v).

(** List objects of the store. *)
Definition list_new (v : list str) : M nat :=
  λ w, (Ok (length (heap w)), {| heap := heap w ++ [v]; self := self w |}).

Definition list_get (l : nat) : M (list str) :=
  λ w, match heap w !! l with
       | Some v => (Ok v, w)
       | None => (Raise DanglingReference, w)
       end.

Definition list_put (l : nat) (v : list str) : M unit :=
  λ w, (Ok tt, {| heap := <[l := v]> (heap w); self := self w |}).

(** [l[i]] *)
Definition list_getitem (l : nat) (i : Z) : M str :=
  let* v := list_get l in
  match py_index (length v) i with
  | Some n => match v !! n with
              | Some x => ret x
              | None => raise IndexError
              end
  | None => raise IndexError
  end.

(** [l[i] = x] *)
Definition list_setitem (l : nat) (i : Z) (x : str) : M unit :=
  let* v := list_get l in
  match py_index (length v) i with
  | Some n => list_put l (<[n := x]> v)
  | None => raise IndexError
  end.

(** [l.insert(0, x)] *)
Definition list_insert0 (l : nat) (x : str) : M unit :=
  let* v := list_get l in list_put l (x :: v).

(** [l.append(x)] *)
Definition list_append (l : nat) (x : str) : M unit :=
  let* v := list_get l in list_put l (v ++ [x]).

(** [len(l)] *)
Definition list_len (l : nat) : M Z :=
  let* v := list_get l in ret (Z.of_nat (length v)).

(** [l.copy()] *)
Definition list_copy (l : nat) : M nat :=
  let* v := list_get l in list_new v.

(** *** The class *)

(** [TuringMachine()], in a store [h]. *)
Definition __init__ (h : store) : world :=
  {| heap := h ++ [[BLANK_SYMBOL]];
     self := {| current_state := py "q0";
                states := {[ py "q0" := ∅ ]};
                tape := length h;
                head_position := LEFT_END;
                step_count := 0;
                saved_state := None;
                symbols := {[ BLANK_SYMBOL ]};
                history := [] |} |}.

Definition new_transition (state symbol instruction : str) : M unit :=
  match Transition.from_str instruction with
  | Ok transition =>
      let* table := attr states in
      set_states (<[state := <[symbol := transition]> (default ∅ (table !! state))]> table);;;
      let* syms := attr symbols in
      set_symbols ({[ symbol ]} ∪ syms)
  | Raise _ => raise (InvalidTransitionError state symbol)
  end.

Definition set_tape (s : nat) : M unit :=
  let* v := list_get s in
  let* s' := match v with
             | [] => list_new [BLANK_SYMBOL]
             | _ => ret s
             end in
  set_tape_ref s';;;
  set_current_state (py "q0");;;
  set_head_position LEFT_END.

Definition _move_head (direction : Direction.t) : M unit :=
  let* head := attr head_position in
  set_head_position (head + Direction.to_int direction);;;
  let* head := attr head_position in
  (if head =? -1 then
     let* tp := attr tape in
     list_insert0 tp BLANK_SYMBOL;;;
     set_head_position LEFT_END
   else ret tt);;;
  let* head := attr head_position in
  let* tp := attr tape in
  let* n := list_len tp in
  if head =? n then list_append tp BLANK_SYMBOL else ret tt.

Definition _set_state (state : str) : M unit :=
  let* table := attr states in
  match table !! state with
  | None => raise (InvalidStateError state)
  | Some _ => set_current_state state
  end.

Definition current_symbol : M str :=
  let* tp := attr tape in
  let* head := attr head_position in
  list_getitem tp head.

Definition get_state_info : M StateInfo.t :=
  let* cs := attr current_state in
  let* head := attr head_position in
  let* tp := attr tape in
  let* tp' := list_copy tp in
  let* n := attr step_count in
  ret (StateInfo.mk cs head tp' n).

(** [self.states[state]] *)
Definition states_getitem (state : str) : M (gmap str Transition.t) :=
  let* table := attr states in
  match table !! state with
  | Some row => ret row
  | None => raise (KeyError state)
  end.

Definition run_transition : M Z :=
  let* symbol := current_symbol in
  let* cs := attr current_state in
  let* row := states_getitem cs in
  match row !! symbol with
  | None => raise (NoTransitionError symbol)
  | Some _ =>
      let* info := get_state_info in
      let* h := attr history in
      set_history (h ++ [info]);;;
      let* h := attr history in
      (if (MAX_HISTORY_LEN <? length h)%nat
       then set_history (drop 1 h) else ret tt);;;
      let* cs := attr current_state in
      let* row := states_getitem cs in
      match row !! symbol with
      | None => raise (KeyError symbol)
      | Some instruction =>
          let* tp := attr tape in
          let* head := attr head_position in
          list_setitem tp head (Transition.write_symbol instruction);;;
          _set_state (Transition.next_state instruction);;;
          let* n := attr step_count in
          set_step_count (n + 1);;;
          if decide (Transition.direction instruction = Direction.STOP) then ret 0
          else
            _move_head (Transition.direction instruction);;;
            ret 1
      end
  end.

(** [while self.run_transition(): pass], at most [fuel] iterations;
    [None] when the loop is still running after them. *)
Fixpoint run (fuel : nat) (w : world) : option (outcome unit * world) :=
  match fuel with
  | O => None
  | S fuel' =>
      match run_transition w with
      | (Ok r, w') => if r =? 0 then Some (Ok tt, w') else run fuel' w'
      | (Raise e, w') => Some (Raise e, w')
      end
  end.

Definition save_tape : M unit :=
  let* info := get_state_info in
  set_saved_state (Some info).

Definition load_tape : M unit :=
  let* saved := attr saved_state in
  match saved with
  | Some saved =>
      set_head_position (StateInfo.head_position saved);;;
      let* tp := list_copy (StateInfo.tape saved) in
      set_tape_ref tp;;;
      set_current_state (StateInfo.current_state saved);;;
      set_step_count (StateInfo.step_count saved)
  | None => ret tt
  end.

(** [get_symbols]:
    [sorted(self.symbols, key=lambda x: ord(x) if x != '_' else -1)].
    [ord] takes a one-character string and raises [TypeError] on any
    other; [sorted] computes the key of every element before it
    compares any. The order in which a set is iterated is not fixed,
    neither in Python nor here; the result does not depend on it. *)

(** [ord(x)] *)
Definition ord (x : str) : Z + exn :=
  match x with
  | [c] => inl (Z.of_N c)
  | _ => inr TypeError
  end.

(** [ord(x) if x != '_' else -1] *)
Definition symbol_key (x : str) : Z + exn :=
  if decide (x ≠ py "_") then ord x else inl (-1).

(** The key where it exists. *)
Definition key_of (x : str) : Z :=
  match symbol_key x with inl k => k | inr _ => 0 end.

Definition key_le (x y : str) : Prop := key_of x ≤ key_of y.

#[global] Instance key_le_dec x y : Decision (key_le x y).
Proof. unfold key_le. apply _. Defined.

#[global] Instance key_le_total : Total key_le.
Proof. intros x y. unfold key_le. lia. Qed.

#[global] Instance key_le_trans : Transitive key_le.
Proof. intros x y z. unfold key_le. lia. Qed.

(** Whether the key of [x] is computed without an error. *)
Definition has_key (x : str) : bool :=
  match symbol_key x with inl _ => true | inr _ => false end.

Definition get_symbols (m : t) : list str + exn :=
  let xs := elements (symbols m) in
  if forallb has_key xs
  then inl (merge_sort key_le xs)
  else inr TypeError.

Definition step_back : M Z :=
  let* h := attr history in
  match last h with
  | Some prev =>
      set_history (removelast h);;;
      set_head_position (StateInfo.head_position prev);;;
      let* tp := list_copy (StateInfo.tape prev) in
      set_tape_ref tp;;;
      set_current_state (StateInfo.current_state prev);;;
      set_step_count (StateInfo.step_count prev);;;
      ret 1
  | None => ret 0
  end.

(** [for x in l: body(x)] *)
Fixpoint for_each {A} (l : list A) (body : A → M unit) : M unit :=
  match l with
  | [] => ret tt
  | x :: l' => body x;;; for_each l' body
  end.

(** What [json.load] returns for a document of the persisted format:
    the two fields, the objects in document order. *)
Record document := Document {
  doc_tape : list str;
  doc_states : list (str * list (str * str))
}.

Definition load_from_file (data : document) (h : store) : outcome t * store :=
  let tape_ref := length h in
  let w := __init__ (h ++ [doc_tape data]) in
  let body :=
    set_tape tape_ref;;;
    for_each (doc_states data) (λ '(state_name, state),
      for_each state (λ '(symbol, transition),
        new_transition state_name symbol transition)) in
  match body w with
  | (Ok _, w') => (Ok (self w'), heap w')
  | (Raise e, w') => (Raise e, heap w')
  end.
End TuringMachine.

(** * The caller

    Of the front end ([TuringMachinGUI.py]) the attribute holding the
    active machine, and what the handler [load_machine] does to it and
    to the store once the document has been read. The widgets are not
    modelled. *)
Module TuringMachineGUI.
Import TuringMachine.

(** [try:
       self.machine = TuringMachine.load_from_file(filename)
       self.table_editor.machine = self.machine
       self.table_editor.states = self.machine.get_states()
       self.table_editor.symbols = self.machine.get_symbols()
       self.table_editor.create_table()
       self.update_display()
       messagebox.showinfo(...)
     except Exception as e: messagebox.showerror(...)]:
    the error shown, if any, the active machine and the store
    afterwards. An error of [load_from_file] comes before the
    assignment and leaves the active machine; an error of [get_symbols]
    comes after it, so the loaded machine is then the active one.
    [get_states] lists the keys of the table and raises nothing;
    [create_table] only reads the table; [update_display] takes a
    snapshot with [get_state_info], which copies the tape. *)
Definition load_machine (machine : TuringMachine.t) (data : document) (h : store)
  : option exn * TuringMachine.t * store :=
  match load_from_file data h with
  | (Ok m, h') =>
      match get_symbols m with
      | inl _ =>
          match get_state_info (World h' m) with
          | (Ok _, w) => (None, self w, heap w)
          | (Raise e, w) => (Some e, self w, heap w)
          end
      | inr e => (Some e, m, h')
      end
  | (Raise e, h') => (Some e, machine, h')
  end.
End TuringMachineGUI.

(** * Machines a caller can obtain

    A machine is created by the constructor and then driven through its
    methods; the caller may build list objects of its own and pass any
    list to [set_tape], but writes to no list itself and assigns no
    attribute of the machine. A failed call leaves the machine as the
    exception found it. [run] and [load_from_file] are covered by
    [reachable_run] and [reachable_load_from_file] below. *)
Inductive reachable : TuringMachine.world → Prop :=
| reach_init h :
    reachable (TuringMachine.__init__ h)
| reach_caller_list w v :
    reachable w →
    reachable (TuringMachine.World (TuringMachine.heap w ++ [v]) (TuringMachine.self w))
| reach_new_transition w state symbol instruction :
    reachable w →
    reachable (snd (TuringMachine.new_transition state symbol instruction w))
| reach_set_tape w s :
    reachable w → reachable (snd (TuringMachine.set_tape s w))
| reach_run_transition w :
    reachable w → reachable (snd (TuringMachine.run_transition w))
| reach_get_state_info w :
    reachable w → reachable (snd (TuringMachine.get_state_info w))
| reach_save_tape w :
    reachable w → reachable (snd (TuringMachine.save_tape w))
| reach_load_tape w :
    reachable w → reachable (snd (TuringMachine.load_tape w))
| reach_step_back w :
    reachable w → reachable (snd (TuringMachine.step_back w)).

(** [n] calls of [run_transition] in a row, each returning normally. *)
Fixpoint steps (n : nat) (w : TuringMachine.world) : option TuringMachine.world :=
  match n with
  | O => Some w
  | S n' =>
      match TuringMachine.run_transition w with
      | (Ok _, w') => steps n' w'
      | (Raise _, _) => None
      end
  end.

(** [k] calls of [step_back] in a row. *)
Fixpoint undos (k : nat) (w : TuringMachine.world) : TuringMachine.world :=
  match k with
  | O => w
  | S k' => undos k' (snd (TuringMachine.step_back w))
  end.

(** * Vocabulary of the statements *)

(** A word: what [split] returns, non-empty and free of whitespace. *)
Definition word (t : str) : Prop := t ≠ [] ∧ Forall (λ c, isspace c = false) t.

Import TuringMachine.

(** The snapshot [get_state_info] returns in [w]; its tape is the copy,
    stored at the next free reference. *)
Definition snapshot (w : world) : StateInfo.t :=
  StateInfo.mk (current_state (self w)) (head_position (self w))
               (length (heap w)) (step_count (self w)).

(** [history.append(info)], then [history.pop(0)] beyond the cap. *)
Definition pushed (h : list StateInfo.t) (info : StateInfo.t) : list StateInfo.t :=
  if (MAX_HISTORY_LEN <? length (h ++ [info]))%nat
  then drop 1 (h ++ [info]) else h ++ [info].

(** What [_move_head] leaves when the tape holds [t]. *)
Definition moved (d : Direction.t) (t : list str) (w : world) : world :=
  let p := head_position (self w) + Direction.to_int d in
  if p =? -1 then
    World (<[tape (self w) := BLANK_SYMBOL :: t]> (heap w))
          (with_head_position LEFT_END (self w))
  else if p =? Z.of_nat (length t) then
    World (<[tape (self w) := t ++ [BLANK_SYMBOL]]> (heap w))
          (with_head_position p (self w))
  else World (heap w) (with_head_position p (self w)).

(** The part of a step up to and including the tape write. *)
Definition written (t : list str) (i : nat) (ins : Transition.t) (w : world) : world :=
  World (<[tape (self w) := <[i := Transition.write_symbol ins]> t]> (heap w ++ [t]))
        (with_history (pushed (history (self w)) (snapshot w)) (self w)).

(** The step finds its instruction: the symbol under the head and the
    table entry for it. *)
Definition enabled (w : world) (t : list str) (i : nat) (symbol : str)
    (row : gmap str Transition.t) (ins : Transition.t) : Prop :=
  heap w !! tape (self w) = Some t
  ∧ py_index (length t) (head_position (self w)) = Some i
  ∧ t !! i = Some symbol
  ∧ states (self w) !! current_state (self w) = Some row
  ∧ row !! symbol = Some ins.

(** The part of a step after the write, for a known next state. *)
Definition advanced (ins : Transition.t) (w : world) : world :=
  World (heap w)
        (with_step_count (step_count (self w) + 1)
           (with_current_state (Transition.next_state ins) (self w))).

(** The list the machine's tape refers to. *)
Definition tape_contents (w : world) : option (list str) :=
  heap w !! tape (self w).

(** ** Example machines

    Each is a fresh machine in an empty store with one table entry for
    state [q0] and the blank symbol. *)
Definition one_rule (instruction : string) : world :=
  snd (new_transition (py "q0") (py "_") (py instruction) (__init__ [])).

(** Stays on the blank cell forever. *)
Definition idle_machine : world := one_rule "_ q0 .".

(** Names a state the table does not have. *)
Definition stray_machine : world := one_rule "1 q9 >".

(** Moves left from the first cell. *)
Definition left_machine : world := one_rule "1 q0 <".

(** Moves right from the last cell. *)
Definition right_machine : world := one_rule "1 q0 >".

(** The machine with table [{q0: {'0': "1 q0 >", '_': "_ q0 !"}}] and
    tape [['0', '0']], built through the methods. *)
Definition flip_machine : world :=
  snd ((new_transition (py "q0") (py "0") (py "1 q0 >");;;
        new_transition (py "q0") (py "_") (py "_ q0 !");;;
        let* s := list_new [py "0"; py "0"] in
        set_tape s) (__init__ [])).

(** A machine that has made a step, and a list of the caller's. *)
Definition stepped_machine : world :=
  let w := snd (run_transition right_machine) in
  World (heap w ++ [[py "a"; py "b"]]) (self w).

(** A document with a two-word instruction. *)
Definition short_document : document :=
  Document [py "0"] [(py "q0", [(py "_", py "_ q0 !"); (py "0", py "1 q0")])].

(** ** Consistency of a machine with its store *)

(** A snapshot names a state of the table and a live list with the
    head on it. *)
Definition snapshot_ok (h : store) (table : gmap str (gmap str Transition.t))
    (s : StateInfo.t) : Prop :=
  is_Some (table !! StateInfo.current_state s)
  ∧ ∃ t, h !! StateInfo.tape s = Some t
         ∧ 0 ≤ StateInfo.head_position s < Z.of_nat (length t).

Definition consistent (w : world) : Prop :=
  (length (history (self w)) ≤ MAX_HISTORY_LEN)%nat
  ∧ is_Some (states (self w) !! py "q0")
  ∧ is_Some (states (self w) !! current_state (self w))
  ∧ (∃ t, tape_contents w = Some t
          ∧ 0 ≤ head_position (self w) < Z.of_nat (length t))
  ∧ Forall (snapshot_ok (heap w) (states (self w))) (history (self w))
  ∧ (∀ s, saved_state (self w) = Some s →
          snapshot_ok (heap w) (states (self w)) s).

(** Lists are never removed from the store and never shrink. *)
Definition heap_le (h h' : store) : Prop :=
  ∀ l t, h !! l = Some t → ∃ t', h' !! l = Some t' ∧ (length t ≤ length t')%nat.

Definition table_le (m m' : gmap str (gmap str Transition.t)) : Prop :=
  ∀ k, is_Some (m !! k) → is_Some (m' !! k).

(** ** What an operation leaves alone *)

(** From [w] to [w'] no list has left the store and none but the tape
    of [w] has changed. *)
Definition only_tape_written (w w' : world) : Prop :=
  (length (heap w) ≤ length (heap w'))%nat
  ∧ ∀ l, l ≠ tape (self w) → (l < length (heap w))%nat → heap w' !! l = heap w !! l.

(** From [w] to [w'] the store has only received new lists. *)
Definition store_extended (w w' : world) : Prop :=
  ∃ extra, heap w' = heap w ++ extra.

(** ** Sequences of calls

    The calls a caller makes on one machine, in order; [CallerList v]
    is the caller building a list of its own. A call that raises leaves
    the machine as the exception found it, and the caller goes on.
    ([run] is a sequence of [run_transition] calls.) *)
Inductive call :=
| CallerList (v : list str)
| NewTransition (state symbol instruction : str)
| SetTape (s : nat)
| RunTransition
| GetStateInfo
| SaveTape
| LoadTape
| StepBack.

#[global] Instance call_eq_dec : EqDecision call.
Proof. solve_decision. Defined.

Definition perform (c : call) (w : world) : world :=
  match c with
  | CallerList v => World (heap w ++ [v]) (self w)
  | NewTransition state symbol instruction =>
      snd (new_transition state symbol instruction w)
  | SetTape s => snd (set_tape s w)
  | RunTransition => snd (run_transition w)
  | GetStateInfo => snd (get_state_info w)
  | SaveTape => snd (save_tape w)
  | LoadTape => snd (load_tape w)
  | StepBack => snd (step_back w)
  end.

Definition perform_all (cs : list call) (w : world) : world :=
  foldl (λ w c, perform c w) w cs.

(** ** The table as a lookup

    [self.states[state][symbol]] where both keys are present, as
    [run_transition] and the table editor test it. *)
Definition lookup_transition (m : TuringMachine.t) (state symbol : str)
  : option Transition.t :=
  states m !! state ≫= (λ row, row !! symbol).

(** ** Documents and tables *)

(** The entries of a document, state by state, in document order. *)
Definition doc_entries (table : list (str * list (str * str)))
  : list (str * str * str) :=
  flat_map (λ '(state_name, state),
              map (λ '(symbol, transition), (state_name, symbol, transition)) state)
           table.

(** The pair of keys of an entry. *)
Definition entry_key (e : str * str * str) : str * str := e.1.

(** No pair of keys comes with two different instructions, as in any
    dict of dicts. *)
Definition one_instruction_per_key (es : list (str * str * str)) : Prop :=
  ∀ st sy i1 i2, (st, sy, i1) ∈ es → (st, sy, i2) ∈ es → i1 = i2.

(** What the table and the symbol set of a machine built through
    [new_transition] always satisfy: [q0] has a row, no other row is
    empty, every transition has a non-empty, whitespace-free write
    symbol and next state, and the symbols are the blank and the read
    symbols of the entries. *)
Definition table_wf (m : TuringMachine.t) : Prop :=
  is_Some (states m !! py "q0")
  ∧ (∀ st, states m !! st = Some ∅ → st = py "q0")
  ∧ (∀ st sy tr, lookup_transition m st sy = Some tr →
       word (Transition.write_symbol tr) ∧ word (Transition.next_state tr))
  ∧ (∀ sy, sy ∈ symbols m
           ↔ sy = BLANK_SYMBOL ∨ ∃ st tr, lookup_transition m st sy = Some tr).

(** [save_to_file], up to the writing of the file: the document
    [json.dump] is given. The items of a dict come in the order of
    their insertion, which the table does not record; here they come in
    the order of [map_to_list]. *)
Definition save_to_file : M document :=
  let* tp := attr tape in
  let* v := list_get tp in
  let* table := attr states in
  ret (Document v
         (map (λ '(state_name, state),
                 (state_name,
                  map (λ '(symbol, transition), (symbol, Transition.to_str transition))
                      (map_to_list state)))
              (map_to_list table))).

(** [data'] holds the tape and the entries of [data], its states and
    the entries of each state in any order. *)
Definition same_document (data data' : document) : Prop :=
  doc_tape data' = doc_tape data
  ∧ ∃ rows, doc_states data ≡ₚ rows
      ∧ Forall2 (λ r r', r.1 = r'.1 ∧ r.2 ≡ₚ r'.2) rows (doc_states data').

(** A document in which every instruction is three words, the third a
    direction token. *)
Definition well_formed_entries (es : list (str * str * str)) : Prop :=
  ∀ st sy ins, (st, sy, ins) ∈ es → ∃ a b d, split ins = [a; b; Direction.value d].

(** Documents for the examples. *)
Definition flip_document : document :=
  Document [py "0"; py "0"]
    [(py "q0", [(py "0", py "1 q0 >"); (py "_", py "_ q1 !")]);
     (py "q1", [])].

(** ** The loop of [run]

    [n] passes through the loop: [n] calls of [run_transition] in a
    row, each returning a value other than 0. *)
Fixpoint iterations (n : nat) (w : world) : option world :=
  match n with
  | O => Some w
  | S n' =>
      match run_transition w with
      | (Ok r, w') => if r =? 0 then None else iterations n' w'
      | (Raise _, _) => None
      end
  end.

(** A machine with table [{q0: {'_': "1 q1 >"}, q1: {'_': "_ q1 !"}}]:
    one step to the right, then a halting one. *)
Definition two_step_machine : world :=
  snd (new_transition (py "q1") (py "_") (py "_ q1 !")
         (snd (new_transition (py "q0") (py "_") (py "1 q1 >") (__init__ [])))).

(** * [TuringMachinGUI.py]: the table editor

    [TransitionTableEditor.apply_transitions]. The cells are the dict
    [self.cells], from a pair of state and symbol to an entry widget;
    here, in the order of the dict, the pairs with the text of their
    widgets, the text being what [entry.get()] returns. The handler
    assigns the attribute [states] of the machine, which no method of
    the machine does. The result is the error shown, if any, and the
    machine as the handler leaves it. *)
Module TransitionTableEditor.

(** The body of the loop:
    [value = entry.get().strip(); if value: new_transition(...)] *)
Definition apply_cell (cell : str * str * str) : M unit :=
  let '(state, symbol, text) := cell in
  match strip text with
  | [] => ret tt
  | value => new_transition state symbol value
  end.

Definition apply_transitions (cells : list (str * str * str)) (w : world)
  : option exn * world :=
  match (set_states ∅;;; for_each cells apply_cell) w with
  | (Ok _, w') => (None, w')
  | (Raise e, w') => (Some e, w')
  end.

End TransitionTableEditor.

Import TransitionTableEditor.

(** The cells that hold more than whitespace, with their text stripped. *)
Definition filled_cells (cells : list (str * str * str)) : list (str * str * str) :=
  flat_map (λ '(state, symbol, text),
              match strip text with
              | [] => []
              | value => [(state, symbol, value)]
              end) cells.

(** The machine of a front end just started, after "Apply table" with
    its one cell, for [q0] and the blank, left empty. *)
Definition emptied_machine : world :=
  snd (apply_transitions [(py "q0", py "_", py "")] (__init__ [])).

(** Cells for the examples: a table of two states and two symbols with
    one cell filled in, in the row of [q1]. *)
Definition q1_cells : list (str * str * str) :=
  [(py "q0", py "_", py ""); (py "q0", py "1", py "  ");
   (py "q1", py "_", py " _ q1 ! "); (py "q1", py "1", py "")].

(** The same with a two-word cell after the filled one. *)
Definition bad_cells : list (str * str * str) :=
  [(py "q0", py "_", py "1 q1 >"); (py "q0", py "1", py "1 q1");
   (py "q1", py "_", py "_ q1 !")].

(** A document with an entry for a symbol of two characters. *)
Definition wide_document : document :=
  Document [py "0"] [(py "q0", [(py "ab", py "_ q0 !")])].

(** * Results *)

(** ** Words and whitespace *)

Lemma split_from_word cur t rest :
  Forall (λ c, isspace c = false) t →
  split_from cur (t ++ rest) = split_from (rev t ++ cur) rest.
Proof.
  intros Ht. revert cur. induction Ht as [|c t Hc _ IH]; intros cur; [done|].
  cbn [app split_from]. rewrite Hc, IH. f_equal.
  cbn [rev]. by rewrite <- app_assoc.
Qed.

Lemma split_from_spaces cur ws :
  Forall (λ c, isspace c = true) ws →
  split_from cur ws = split_from cur [].
Proof.
  intros Hws. revert cur. induction Hws as [|c ws Hc _ IH]; intros cur; [done|].
  cbn [split_from]. rewrite Hc, (IH []). by destruct cur.
Qed.

Lemma split_from_trailing cur s ws :
  Forall (λ c, isspace c = true) ws →
  split_from cur (s ++ ws) = split_from cur s.
Proof.
  intros Hws. revert cur. induction s as [|c s IH]; intros cur.
  - by apply split_from_spaces.
  - cbn [app split_from]. rewrite !IH. done.
Qed.

Lemma split_from_words cur s tok :
  Forall (λ c, isspace c = false) cur →
  tok ∈ split_from cur s → word tok.
Proof.
  revert cur. induction s as [|c s IH]; intros cur Hcur; cbn [split_from].
  - destruct cur as [|c0 cur]; [by intros ?%elem_of_nil|].
    intros ->%list_elem_of_singleton. split.
    + intros E. apply (f_equal length) in E. rewrite length_rev in E. done.
    + by apply Forall_rev.
  - destruct (isspace c) eqn:Hc.
    + destruct cur as [|c0 cur]; [by apply IH|].
      intros [->|Hin]%elem_of_cons; [|by apply (IH [])].
      split.
      * intros E. apply (f_equal length) in E. rewrite length_rev in E. done.
      * by apply Forall_rev.
    + apply IH. by constructor.
Qed.

Lemma lstrip_spaces s :
  ∃ ws, s = ws ++ lstrip s ∧ Forall (λ c, isspace c = true) ws.
Proof.
  induction s as [|c s (ws & E & Hws)]; [by exists []|].
  cbn [lstrip]. destruct (isspace c) eqn:Hc.
  - exists (c :: ws). split; [by rewrite E at 1|by constructor].
  - by exists [].
Qed.

Lemma split_lstrip s : split (lstrip s) = split s.
Proof.
  unfold split. induction s as [|c s IH]; [done|].
  cbn [lstrip]. destruct (isspace c) eqn:Hc; [|done].
  cbn [split_from]. by rewrite Hc.
Qed.

Lemma split_rstrip s : split (rstrip s) = split s.
Proof.
  destruct (lstrip_spaces (rev s)) as (ws & E & Hws).
  apply (f_equal (@rev _)) in E. rewrite rev_involutive, rev_app_distr in E.
  unfold split, rstrip. rewrite E at 2.
  symmetry. apply split_from_trailing. by apply Forall_rev.
Qed.

Lemma split_strip s : split (strip s) = split s.
Proof. unfold strip. by rewrite split_rstrip, split_lstrip. Qed.

Lemma split_three a b c :
  word a → word b → word c →
  split (a ++ py " " ++ b ++ py " " ++ c) = [a; b; c].
Proof.
  intros [Ha Ha'] [Hb Hb'] [Hc Hc']. unfold split.
  rewrite split_from_word, app_nil_r by done. cbn [py app split_from].
  replace (isspace (N_of_ascii " ")) with true by done.
  destruct (rev a) eqn:Ea.
  { apply (f_equal (@rev _)) in Ea. rewrite rev_involutive in Ea. done. }
  rewrite <- Ea, rev_involutive. f_equal.
  rewrite split_from_word, app_nil_r by done. cbn [app split_from].
  replace (isspace (N_of_ascii " ")) with true by done.
  destruct (rev b) eqn:Eb.
  { apply (f_equal (@rev _)) in Eb. rewrite rev_involutive in Eb. done. }
  rewrite <- Eb, rev_involutive. f_equal.
  pose proof (split_from_word [] c [] Hc') as E.
  rewrite !app_nil_r in E. rewrite E. cbn [split_from].
  destruct (rev c) eqn:Ec.
  { apply (f_equal (@rev _)) in Ec. rewrite rev_involutive in Ec. done. }
  by rewrite <- Ec, rev_involutive.
Qed.

Lemma value_word d : word (Direction.value d).
Proof. destruct d; (split; [done|by repeat constructor]). Qed.

Lemma of_value_value d : Direction.of_value (Direction.value d) = Ok d.
Proof. by destruct d. Qed.

Lemma elem_of_ALL v : v ∈ Direction.ALL ↔ ∃ d, v = Direction.value d.
Proof.
  unfold Direction.ALL. rewrite !elem_of_cons, elem_of_nil. split.
  - intros [->|[->|[->|[->|[]]]]]; eauto.
  - intros [[] ->]; tauto.
Qed.

Lemma from_str_to_str tr :
  word (Transition.write_symbol tr) → word (Transition.next_state tr) →
  Transition.from_str (Transition.to_str tr) = Ok tr.
Proof.
  intros Hw Hn. unfold Transition.from_str, Transition.to_str.
  rewrite split_strip, split_three by auto using value_word.
  rewrite bool_decide_eq_true_2 by (apply elem_of_ALL; eauto).
  rewrite of_value_value. by destruct tr.
Qed.

(** C7. An instruction string that splits into exactly three
    whitespace-separated words, the third a direction token, parses;
    and serialising the parsed transition and parsing that again gives
    the same transition as parsing the string once. *)
Theorem from_str_round_trip (s a b c : str) :
  split s = [a; b; c] → c ∈ Direction.ALL →
  ∃ tr, Transition.from_str s = Ok tr
        ∧ Transition.from_str (Transition.to_str tr) = Transition.from_str s.
Proof.
  intros Hs Hc.
  assert (word a ∧ word b) as [Ha Hb].
  { split; apply (split_from_words [] s); try constructor;
      fold (split s); rewrite Hs; repeat constructor. }
  apply elem_of_ALL in Hc as [d ->].
  exists (Transition.mk b a d).
  assert (Transition.from_str s = Ok (Transition.mk b a d)) as E.
  { unfold Transition.from_str. rewrite split_strip, Hs.
    rewrite bool_decide_eq_true_2 by (apply elem_of_ALL; eauto).
    by rewrite of_value_value. }
  split; [done|]. rewrite E. by apply from_str_to_str.
Qed.

Lemma from_str_round_trip_witness :
  ∃ tr, Transition.from_str (py "  1   q0 > ") = Ok tr
        ∧ Transition.from_str (Transition.to_str tr)
          = Transition.from_str (py "  1   q0 > ").
Proof.
  apply (from_str_round_trip (py "  1   q0 > ") (py "1") (py "q0") (py ">")).
  - vm_compute. reflexivity.
  - vm_compute. repeat constructor.
Defined.

(** ** Computations *)

Local Arguments Nat.ltb : simpl never.

Section monad_equations.
Context {A B : Type}.
Implicit Types (c : M A) (k : A → M B) (w : world).

Lemma bind_Ok c k w a w' : c w = (Ok a, w') → bind c k w = k a w'.
Proof. unfold bind. by intros ->. Qed.

Lemma bind_Raise c k w e w' : c w = (Raise e, w') → bind c k w = (Raise e, w').
Proof. unfold bind. by intros ->. Qed.

Lemma bind_ret (a : A) k w : bind (ret a) k w = k a w.
Proof. done. Qed.

Lemma bind_raise e k w : bind (raise e) k w = (Raise e, w).
Proof. done. Qed.

Lemma bind_attr (f : t → A) k w : bind (attr f) k w = k (f (self w)) w.
Proof. done. Qed.
End monad_equations.

Lemma bind_update {B} (f : t → t) (k : unit → M B) w :
  bind (update f) k w = k tt (World (heap w) (f (self w))).
Proof. done. Qed.

Lemma bind_bind {A B C} (c : M A) (k1 : A → M B) (k2 : B → M C) w :
  bind (bind c k1) k2 w = bind c (λ a, bind (k1 a) k2) w.
Proof. unfold bind. destruct (c w) as [[a|e] w']; done. Qed.

Ltac fields :=
  cbn [self heap current_state states tape head_position step_count
       saved_state symbols history with_current_state with_states with_tape
       with_head_position with_step_count with_saved_state with_symbols
       with_history StateInfo.current_state StateInfo.head_position
       StateInfo.tape StateInfo.step_count fst snd] in *.

Ltac msimpl :=
  repeat (progress (
    unfold set_current_state, set_states, set_tape_ref, set_head_position,
           set_step_count, set_saved_state, set_symbols, set_history;
    rewrite ?bind_bind, ?bind_attr, ?bind_update, ?bind_ret, ?bind_raise;
    fields)).

Lemma py_index_lt len i n : py_index len i = Some n → (n < len)%nat.
Proof. unfold py_index. repeat case_match; intros [= <-]; lia. Qed.

Lemma py_index_in_range len i :
  0 ≤ i < Z.of_nat len → py_index len i = Some (Z.to_nat i).
Proof.
  intros Hi. unfold py_index.
  destruct (Z.leb_spec 0 i), (Z.ltb_spec i (Z.of_nat len)); done || lia.
Qed.

Section list_objects.
Context (w : world) (l : nat) (v : list str).
Hypothesis Hl : heap w !! l = Some v.

Lemma list_get_eq : list_get l w = (Ok v, w).
Proof using Hl. unfold list_get. by rewrite Hl. Qed.

Lemma list_copy_eq :
  list_copy l w = (Ok (length (heap w)), World (heap w ++ [v]) (self w)).
Proof using Hl. unfold list_copy. by rewrite (bind_Ok _ _ _ _ _ list_get_eq). Qed.

Lemma list_len_eq : list_len l w = (Ok (Z.of_nat (length v)), w).
Proof using Hl. unfold list_len. by rewrite (bind_Ok _ _ _ _ _ list_get_eq). Qed.

Lemma list_insert0_eq x :
  list_insert0 l x w = (Ok tt, World (<[l := x :: v]> (heap w)) (self w)).
Proof using Hl. unfold list_insert0. by rewrite (bind_Ok _ _ _ _ _ list_get_eq). Qed.

Lemma list_append_eq x :
  list_append l x w = (Ok tt, World (<[l := v ++ [x]]> (heap w)) (self w)).
Proof using Hl. unfold list_append. by rewrite (bind_Ok _ _ _ _ _ list_get_eq). Qed.

Lemma list_getitem_eq i n x :
  py_index (length v) i = Some n → v !! n = Some x →
  list_getitem l i w = (Ok x, w).
Proof using Hl.
  intros Hi Hx. unfold list_getitem.
  by rewrite (bind_Ok _ _ _ _ _ list_get_eq), Hi, Hx.
Qed.

Lemma list_getitem_IndexError i :
  py_index (length v) i = None → list_getitem l i w = (Raise IndexError, w).
Proof using Hl.
  intros Hi. unfold list_getitem.
  by rewrite (bind_Ok _ _ _ _ _ list_get_eq), Hi.
Qed.

Lemma list_setitem_eq i n x :
  py_index (length v) i = Some n →
  list_setitem l i x w = (Ok tt, World (<[l := <[n := x]> v]> (heap w)) (self w)).
Proof using Hl.
  intros Hi. unfold list_setitem.
  by rewrite (bind_Ok _ _ _ _ _ list_get_eq), Hi.
Qed.
End list_objects.

Lemma list_get_dangling w l :
  heap w !! l = None → list_get l w = (Raise DanglingReference, w).
Proof. unfold list_get. by intros ->. Qed.

Ltac open_world w :=
  let h := fresh "h" in
  destruct w as [h [? ? ? ? ? ? ? ?]]; fields.

(** Run the list operation at the head of the computation, its store
    lookup discharged by [tac]. *)
Ltac mlist lem tac :=
  erewrite bind_Ok by (eapply lem; fields; tac); msimpl.

Lemma get_state_info_eq w t :
  heap w !! tape (self w) = Some t →
  get_state_info w = (Ok (snapshot w), World (heap w ++ [t]) (self w)).
Proof.
  intros Ht. open_world w. unfold get_state_info. msimpl.
  mlist list_copy_eq ltac:(exact Ht). done.
Qed.

Lemma _move_head_eq d w t :
  heap w !! tape (self w) = Some t →
  _move_head d w = (Ok tt, moved d t w).
Proof.
  intros Ht. open_world w. pose proof (lookup_lt_Some _ _ _ Ht) as Hlt.
  unfold _move_head, moved. msimpl.
  destruct (_ + Direction.to_int d =? -1) eqn:Hp.
  - msimpl. mlist list_insert0_eq ltac:(exact Ht).
    mlist list_len_eq ltac:(by apply list_lookup_insert_eq).
    done.
  - msimpl. mlist list_len_eq ltac:(exact Ht).
    destruct (_ =? Z.of_nat (length t)); [|done].
    erewrite list_append_eq by (fields; exact Ht). done.
Qed.

Lemma _set_state_known state w x :
  states (self w) !! state = Some x →
  _set_state state w = (Ok tt, World (heap w) (with_current_state state (self w))).
Proof. intros Hs. unfold _set_state. msimpl. rewrite Hs. by msimpl. Qed.

Lemma _set_state_unknown state w :
  states (self w) !! state = None →
  _set_state state w = (Raise (InvalidStateError state), w).
Proof. intros Hs. unfold _set_state. msimpl. by rewrite Hs. Qed.

Lemma current_symbol_eq w t i symbol :
  heap w !! tape (self w) = Some t →
  py_index (length t) (head_position (self w)) = Some i →
  t !! i = Some symbol →
  current_symbol w = (Ok symbol, w).
Proof.
  intros Ht Hi Hx. unfold current_symbol. msimpl.
  by apply (list_getitem_eq _ _ _ Ht _ _ _ Hi Hx).
Qed.

Lemma run_transition_enabled w t i symbol row ins :
  enabled w t i symbol row ins →
  run_transition w =
    (_set_state (Transition.next_state ins);;;
     let* n := attr step_count in
     set_step_count (n + 1);;;
     if decide (Transition.direction ins = Direction.STOP) then ret 0
     else _move_head (Transition.direction ins);;; ret 1)
    (written t i ins w).
Proof.
  intros (Ht & Hi & Hsym & Hrow & Hins).
  unfold run_transition, written.
  rewrite (bind_Ok _ _ _ _ _ (current_symbol_eq _ _ _ _ Ht Hi Hsym)).
  open_world w. unfold states_getitem. msimpl. rewrite Hrow. msimpl.
  rewrite Hins.
  erewrite bind_Ok by (apply get_state_info_eq; fields; exact Ht). msimpl.
  unfold pushed, snapshot. fields.
  destruct (MAX_HISTORY_LEN <? _)%nat; msimpl; rewrite Hrow; msimpl; rewrite Hins;
    msimpl;
    (erewrite bind_Ok
       by (eapply list_setitem_eq; fields; [by apply lookup_app_l_Some|exact Hi]));
    done.
Qed.

Lemma run_transition_cases w :
  (∃ t i symbol row ins, enabled w t i symbol row ins)
  ∨ (∃ e, run_transition w = (Raise e, w) ∧ ∀ s, e ≠ InvalidStateError s).
Proof.
  unfold enabled.
  destruct (heap w !! tape (self w)) as [t|] eqn:Ht; last first.
  { right. exists DanglingReference. split; [|done].
    unfold run_transition, current_symbol, list_getitem. msimpl.
    by rewrite (bind_Raise _ _ _ _ _ (list_get_dangling _ _ Ht)). }
  destruct (py_index (length t) (head_position (self w))) as [i|] eqn:Hi; last first.
  { right. exists IndexError. split; [|done].
    unfold run_transition, current_symbol. msimpl.
    by rewrite (bind_Raise _ _ _ _ _ (list_getitem_IndexError _ _ _ Ht _ Hi)). }
  destruct (lookup_lt_is_Some_2 t i (py_index_lt _ _ _ Hi)) as [symbol Hsym].
  pose proof (current_symbol_eq _ _ _ _ Ht Hi Hsym) as Hcur.
  destruct (states (self w) !! current_state (self w)) as [row|] eqn:Hrow; last first.
  { right. exists (KeyError (current_state (self w))). split; [|done].
    unfold run_transition. rewrite (bind_Ok _ _ _ _ _ Hcur).
    unfold states_getitem. msimpl. rewrite Hrow. by msimpl. }
  destruct (row !! symbol) as [ins|] eqn:Hins; last first.
  { right. exists (NoTransitionError symbol). split; [|done].
    unfold run_transition. rewrite (bind_Ok _ _ _ _ _ Hcur).
    unfold states_getitem. msimpl. rewrite Hrow. msimpl. by rewrite Hins. }
  left. by exists t, i, symbol, row, ins.
Qed.

Lemma written_tape w t i ins :
  heap w !! tape (self w) = Some t →
  heap (written t i ins w) !! tape (self (written t i ins w))
  = Some (<[i := Transition.write_symbol ins]> t).
Proof.
  intros Ht. unfold written. fields. apply list_lookup_insert_eq.
  rewrite length_app. apply lookup_lt_Some in Ht. lia.
Qed.

Lemma written_copy w t i ins :
  heap w !! tape (self w) = Some t →
  heap (written t i ins w) !! length (heap w) = Some t.
Proof.
  intros Ht. unfold written. fields. apply lookup_lt_Some in Ht as Hlt.
  rewrite list_lookup_insert_ne by lia. apply list_lookup_middle. done.
Qed.

Lemma run_transition_unknown w t i symbol row ins :
  enabled w t i symbol row ins →
  states (self w) !! Transition.next_state ins = None →
  run_transition w
  = (Raise (InvalidStateError (Transition.next_state ins)), written t i ins w).
Proof.
  intros Hen Hnext. rewrite (run_transition_enabled _ _ _ _ _ _ Hen).
  by rewrite (bind_Raise _ _ _ _ _ (_set_state_unknown _ (written t i ins w) Hnext)).
Qed.

Lemma run_transition_halt w t i symbol row ins x :
  enabled w t i symbol row ins →
  states (self w) !! Transition.next_state ins = Some x →
  Transition.direction ins = Direction.STOP →
  run_transition w = (Ok 0, advanced ins (written t i ins w)).
Proof.
  intros Hen Hnext Hd. rewrite (run_transition_enabled _ _ _ _ _ _ Hen).
  rewrite (bind_Ok _ _ _ _ _ (_set_state_known _ (written t i ins w) x Hnext)).
  msimpl. by rewrite decide_True.
Qed.

Lemma run_transition_move w t i symbol row ins x :
  enabled w t i symbol row ins →
  states (self w) !! Transition.next_state ins = Some x →
  Transition.direction ins ≠ Direction.STOP →
  run_transition w
  = (Ok 1, moved (Transition.direction ins) (<[i := Transition.write_symbol ins]> t)
             (advanced ins (written t i ins w))).
Proof.
  intros Hen Hnext Hd. rewrite (run_transition_enabled _ _ _ _ _ _ Hen).
  rewrite (bind_Ok _ _ _ _ _ (_set_state_known _ (written t i ins w) x Hnext)).
  msimpl. rewrite decide_False by done.
  erewrite bind_Ok; [by msimpl|].
  apply _move_head_eq. apply written_tape. by destruct Hen.
Qed.

(** ** The history *)

Lemma pushed_snoc h info :
  pushed h info
  = (if (MAX_HISTORY_LEN <=? length h)%nat then drop 1 h else h) ++ [info].
Proof.
  unfold pushed. rewrite length_app, Nat.add_1_r.
  destruct (Nat.ltb_spec MAX_HISTORY_LEN (S (length h))),
           (Nat.leb_spec MAX_HISTORY_LEN (length h)); try lia; [|done].
  destruct h; [|done].
  unfold MAX_HISTORY_LEN in *. cbn [length] in *. lia.
Qed.

Lemma last_pushed h info : last (pushed h info) = Some info.
Proof. rewrite pushed_snoc. apply last_snoc. Qed.

Lemma removelast_pushed h info :
  removelast (pushed h info)
  = if (MAX_HISTORY_LEN <=? length h)%nat then drop 1 h else h.
Proof. rewrite pushed_snoc. apply removelast_last. Qed.

Lemma length_pushed h info :
  (length h ≤ MAX_HISTORY_LEN → length (pushed h info) ≤ MAX_HISTORY_LEN)%nat.
Proof.
  intros Hh. rewrite pushed_snoc, length_app, Nat.add_1_r.
  destruct (Nat.leb_spec MAX_HISTORY_LEN (length h)).
  - rewrite length_drop. unfold MAX_HISTORY_LEN in *. lia.
  - lia.
Qed.

Lemma step_back_empty w :
  history (self w) = [] → step_back w = (Ok 0, w).
Proof. intros Hh. unfold step_back. msimpl. by rewrite Hh. Qed.

Lemma step_back_eq w prev v :
  last (history (self w)) = Some prev →
  heap w !! StateInfo.tape prev = Some v →
  step_back w
  = (Ok 1,
     World (heap w ++ [v])
           (mk (StateInfo.current_state prev) (states (self w)) (length (heap w))
               (StateInfo.head_position prev) (StateInfo.step_count prev)
               (saved_state (self w)) (symbols (self w))
               (removelast (history (self w))))).
Proof.
  intros Hlast Hv. open_world w. unfold step_back. msimpl. rewrite Hlast. msimpl.
  mlist list_copy_eq ltac:(exact Hv). done.
Qed.

(** ** One step *)

Lemma current_symbol_inv w symbol :
  fst (current_symbol w) = Ok symbol →
  current_symbol w = (Ok symbol, w)
  ∧ ∃ t i, heap w !! tape (self w) = Some t
           ∧ py_index (length t) (head_position (self w)) = Some i
           ∧ t !! i = Some symbol.
Proof.
  destruct (heap w !! tape (self w)) as [t|] eqn:Ht; last first.
  { unfold current_symbol, list_getitem. msimpl.
    by rewrite (bind_Raise _ _ _ _ _ (list_get_dangling _ _ Ht)). }
  destruct (py_index (length t) (head_position (self w))) as [i|] eqn:Hi; last first.
  { unfold current_symbol. msimpl.
    by rewrite (list_getitem_IndexError _ _ _ Ht _ Hi). }
  destruct (lookup_lt_is_Some_2 t i (py_index_lt _ _ _ Hi)) as [x Hx].
  rewrite (current_symbol_eq _ _ _ _ Ht Hi Hx). intros [= <-]. eauto 10.
Qed.

(** C5. The claim fails on a machine whose table has no row for the
    current state. The table editor makes one: [apply_transitions]
    empties the table and, with no cell filled in, shows no error. The
    table then has no entry for [q0] and the blank under the head, and
    the step raises [KeyError] for the state, not [NoTransitionError]
    for the symbol as the docstring of [run_transition] has it; the
    fresh machine, whose row of [q0] is there and empty, raises
    [NoTransitionError]. Either way the machine is left as it was. *)
Theorem no_row_raises_KeyError :
  apply_transitions [(py "q0", py "_", py "")] (__init__ []) = (None, emptied_machine)
  ∧ current_state (self emptied_machine) = py "q0"
  ∧ fst (current_symbol emptied_machine) = Ok (py "_")
  ∧ states (self emptied_machine) = ∅
  ∧ lookup_transition (self emptied_machine) (py "q0") (py "_") = None
  ∧ run_transition emptied_machine = (Raise (KeyError (py "q0")), emptied_machine)
  ∧ fst (run_transition emptied_machine) ≠ Raise (NoTransitionError (py "_"))
  ∧ lookup_transition (self (__init__ [])) (py "q0") (py "_") = None
  ∧ run_transition (__init__ []) = (Raise (NoTransitionError (py "_")), __init__ []).
Proof.
  split_and!; try (vm_compute; reflexivity).
  vm_compute. discriminate.
Qed.

(** Where the current state has a row and the row has no entry for the
    symbol under the head, the step raises [NoTransitionError] for that
    symbol, and the machine and the store are exactly as before; in
    particular nothing was pushed onto the history. The current state
    has a row on every machine built by the constructor and driven
    through the methods ([reachable_consistent]). *)
Theorem no_transition_leaves_machine (w : world) (symbol : str)
    (row : gmap str Transition.t) :
  fst (current_symbol w) = Ok symbol →
  states (self w) !! current_state (self w) = Some row →
  row !! symbol = None →
  run_transition w = (Raise (NoTransitionError symbol), w).
Proof.
  intros [Hcur _]%current_symbol_inv Hrow Hnone.
  unfold run_transition. rewrite (bind_Ok _ _ _ _ _ Hcur).
  unfold states_getitem. msimpl. rewrite Hrow. msimpl. by rewrite Hnone.
Qed.

Lemma no_transition_leaves_machine_witness :
  run_transition (__init__ []) = (Raise (NoTransitionError (py "_")), __init__ []).
Proof.
  apply (no_transition_leaves_machine (__init__ []) (py "_") ∅);
    vm_compute; reflexivity.
Defined.

(** C3. The instruction names a next state that is no key of the
    table: the step raises [InvalidStateError] for that state; the cell
    under the head already holds the write symbol, the tape is otherwise
    as it was and no longer or shorter, the head has not moved, and the
    current state and the step count are those from before the step. *)
Theorem invalid_next_state_keeps_write (w : world) (t : list str) (i : nat)
    (symbol : str) (row : gmap str Transition.t) (ins : Transition.t) :
  enabled w t i symbol row ins →
  states (self w) !! Transition.next_state ins = None →
  ∃ w', run_transition w
        = (Raise (InvalidStateError (Transition.next_state ins)), w')
    ∧ tape (self w') = tape (self w)
    ∧ tape_contents w' = Some (<[i := Transition.write_symbol ins]> t)
    ∧ head_position (self w') = head_position (self w)
    ∧ current_state (self w') = current_state (self w)
    ∧ step_count (self w') = step_count (self w).
Proof.
  intros Hen Hnext. exists (written t i ins w).
  split; [by apply (run_transition_unknown _ _ _ symbol row)|].
  destruct Hen as [Ht _]. split_and!; try done.
  by apply written_tape.
Qed.

Lemma invalid_next_state_keeps_write_witness :
  ∃ w', run_transition stray_machine = (Raise (InvalidStateError (py "q9")), w')
    ∧ tape (self w') = tape (self stray_machine)
    ∧ tape_contents w' = Some [py "1"]
    ∧ head_position (self w') = head_position (self stray_machine)
    ∧ current_state (self w') = current_state (self stray_machine)
    ∧ step_count (self w') = step_count (self stray_machine).
Proof.
  apply (invalid_next_state_keeps_write stray_machine [BLANK_SYMBOL] 0 (py "_")
           {[ py "_" := Transition.mk (py "q9") (py "1") Direction.RIGHT ]}
           (Transition.mk (py "q9") (py "1") Direction.RIGHT)).
  - unfold enabled. repeat split; vm_compute; reflexivity.
  - vm_compute. reflexivity.
Defined.

(** What [step_back] restores from a snapshot of [w] that is the last
    entry of the history and whose copy of the tape is intact. *)
Lemma step_back_snapshot w w1 t :
  heap w !! tape (self w) = Some t →
  last (history (self w1)) = Some (snapshot w) →
  heap w1 !! length (heap w) = Some t →
  ∃ w2, step_back w1 = (Ok 1, w2)
    ∧ current_state (self w2) = current_state (self w)
    ∧ head_position (self w2) = head_position (self w)
    ∧ tape_contents w2 = tape_contents w
    ∧ step_count (self w2) = step_count (self w)
    ∧ states (self w2) = states (self w1)
    ∧ symbols (self w2) = symbols (self w1)
    ∧ saved_state (self w2) = saved_state (self w1)
    ∧ history (self w2) = removelast (history (self w1)).
Proof.
  intros Ht Hlast Hcopy. eexists. split.
  { by apply (step_back_eq _ (snapshot w) t). }
  unfold tape_contents. fields. split_and!; try done.
  rewrite Ht. by apply list_lookup_middle.
Qed.

Lemma moved_frame d t w l :
  l ≠ tape (self w) → heap (moved d t w) !! l = heap w !! l.
Proof.
  intros Hl. unfold moved. repeat case_match; fields; try done;
    by rewrite list_lookup_insert_ne.
Qed.

Lemma moved_fields d t w :
  current_state (self (moved d t w)) = current_state (self w)
  ∧ states (self (moved d t w)) = states (self w)
  ∧ tape (self (moved d t w)) = tape (self w)
  ∧ step_count (self (moved d t w)) = step_count (self w)
  ∧ saved_state (self (moved d t w)) = saved_state (self w)
  ∧ symbols (self (moved d t w)) = symbols (self w)
  ∧ history (self (moved d t w)) = history (self w).
Proof. unfold moved. repeat case_match; done. Qed.

(** C1. A step that returns normally, followed at once by [step_back]:
    [step_back] returns 1 and the current state, the head position, the
    contents of the tape and the step count are those from before the
    step. *)
Theorem step_then_undo_restores (w w' : world) (r : Z) :
  run_transition w = (Ok r, w') →
  ∃ w'', step_back w' = (Ok 1, w'')
    ∧ current_state (self w'') = current_state (self w)
    ∧ head_position (self w'') = head_position (self w)
    ∧ is_Some (tape_contents w)
    ∧ tape_contents w'' = tape_contents w
    ∧ step_count (self w'') = step_count (self w).
Proof.
  intros Hrun.
  destruct (run_transition_cases w) as [(t & i & symbol & row & ins & Hen)|(e & He & _)];
    [|congruence].
  pose proof Hen as (Ht & _).
  assert (tape (self w) ≠ length (heap w)) as Hne
    by (apply lookup_lt_Some in Ht; lia).
  destruct (states (self w) !! Transition.next_state ins) as [x|] eqn:Hnext; last first.
  { rewrite (run_transition_unknown _ _ _ _ _ _ Hen Hnext) in Hrun. done. }
  assert (last (history (self w')) = Some (snapshot w)
          ∧ heap w' !! length (heap w) = Some t) as [Hlast Hcopy].
  { destruct (decide (Transition.direction ins = Direction.STOP)) as [Hd|Hd].
    - rewrite (run_transition_halt _ _ _ _ _ _ _ Hen Hnext Hd) in Hrun.
      injection Hrun as <- <-. split; [apply last_pushed|by apply written_copy].
    - rewrite (run_transition_move _ _ _ _ _ _ _ Hen Hnext Hd) in Hrun.
      injection Hrun as <- <-. split.
      + destruct (moved_fields (Transition.direction ins)
                    (<[i:=Transition.write_symbol ins]> t)
                    (advanced ins (written t i ins w))) as (_&_&_&_&_&_&->).
        apply last_pushed.
      + rewrite moved_frame by (fields; done). by apply written_copy. }
  destruct (step_back_snapshot w w' t Ht Hlast Hcopy)
    as (w2 & E & ? & ? & ? & ? & _).
  exists w2. split_and!; try done; unfold tape_contents; by rewrite Ht.
Qed.

Lemma step_then_undo_restores_witness :
  ∃ w'', step_back (snd (run_transition right_machine)) = (Ok 1, w'')
    ∧ current_state (self w'') = current_state (self right_machine)
    ∧ head_position (self w'') = head_position (self right_machine)
    ∧ is_Some (tape_contents right_machine)
    ∧ tape_contents w'' = tape_contents right_machine
    ∧ step_count (self w'') = step_count (self right_machine).
Proof.
  apply (step_then_undo_restores right_machine (snd (run_transition right_machine)) 1).
  vm_compute. reflexivity.
Defined.

(** C10. A step that fails with [InvalidStateError] has already pushed
    the snapshot taken before it; one [step_back] then returns 1 and
    restores the current state, the head position, the contents of the
    tape (so the write is reverted) and the step count. The table, the
    symbol set and the saved snapshot are untouched throughout, and the
    history is the one from before the step whenever it held fewer than
    [MAX_HISTORY_LEN] entries. *)
Theorem undo_after_invalid_state (w w' : world) (s : str) :
  run_transition w = (Raise (InvalidStateError s), w') →
  last (history (self w')) = Some (snapshot w)
  ∧ ∃ w'', step_back w' = (Ok 1, w'')
    ∧ current_state (self w'') = current_state (self w)
    ∧ head_position (self w'') = head_position (self w)
    ∧ is_Some (tape_contents w)
    ∧ tape_contents w'' = tape_contents w
    ∧ step_count (self w'') = step_count (self w)
    ∧ states (self w'') = states (self w)
    ∧ symbols (self w'') = symbols (self w)
    ∧ saved_state (self w'') = saved_state (self w)
    ∧ ((length (history (self w)) < MAX_HISTORY_LEN)%nat →
       history (self w'') = history (self w)).
Proof.
  intros Hrun.
  destruct (run_transition_cases w) as [(t & i & symbol & row & ins & Hen)|(e & He & Hne)].
  2:{ rewrite He in Hrun. injection Hrun as -> _. by destruct (Hne s). }
  pose proof Hen as (Ht & _).
  destruct (states (self w) !! Transition.next_state ins) as [x|] eqn:Hnext.
  { destruct (decide (Transition.direction ins = Direction.STOP)) as [Hd|Hd].
    - by rewrite (run_transition_halt _ _ _ _ _ _ _ Hen Hnext Hd) in Hrun.
    - by rewrite (run_transition_move _ _ _ _ _ _ _ Hen Hnext Hd) in Hrun. }
  rewrite (run_transition_unknown _ _ _ _ _ _ Hen Hnext) in Hrun.
  injection Hrun as _ <-.
  assert (last (history (self (written t i ins w))) = Some (snapshot w)) as Hlast
    by apply last_pushed.
  split; [done|].
  destruct (step_back_snapshot w _ t Ht Hlast (written_copy _ _ i ins Ht))
    as (w2 & E & ? & ? & ? & ? & ? & ? & ? & Hh).
  exists w2. split_and!; try done; [unfold tape_contents; by rewrite Ht..|].
  intros Hlen. rewrite Hh. unfold written. fields.
  rewrite removelast_pushed.
  destruct (Nat.leb_spec MAX_HISTORY_LEN (length (history (self w)))); [lia|done].
Qed.

Lemma undo_after_invalid_state_witness :
  last (history (self (snd (run_transition stray_machine))))
  = Some (snapshot stray_machine)
  ∧ ∃ w'', step_back (snd (run_transition stray_machine)) = (Ok 1, w'')
    ∧ current_state (self w'') = current_state (self stray_machine)
    ∧ head_position (self w'') = head_position (self stray_machine)
    ∧ is_Some (tape_contents stray_machine)
    ∧ tape_contents w'' = tape_contents stray_machine
    ∧ step_count (self w'') = step_count (self stray_machine)
    ∧ states (self w'') = states (self stray_machine)
    ∧ symbols (self w'') = symbols (self stray_machine)
    ∧ saved_state (self w'') = saved_state (self stray_machine)
    ∧ ((length (history (self stray_machine)) < MAX_HISTORY_LEN)%nat →
       history (self w'') = history (self stray_machine)).
Proof.
  apply (undo_after_invalid_state stray_machine (snd (run_transition stray_machine))
           (py "q9")).
  vm_compute. reflexivity.
Defined.

(** ** Head movement *)

Lemma to_int_range d : d ≠ Direction.STOP → -1 ≤ Direction.to_int d ≤ 1.
Proof. destruct d; cbn; lia. Qed.

(** C6. A step that moves the head, on a machine whose head is on the
    tape: the cell under the head is written, then a head that would
    leave the tape on the left gets one blank cell inserted at index 0
    and stands at 0, a head that would leave it on the right gets one
    blank cell appended and stands on it, and any other head just moves;
    in every case the head ends on the tape. *)
Theorem head_movement_extends_tape (w : world) (t : list str) (symbol : str)
    (row : gmap str Transition.t) (ins : Transition.t) (x : gmap str Transition.t) :
  tape_contents w = Some t →
  0 ≤ head_position (self w) < Z.of_nat (length t) →
  t !! Z.to_nat (head_position (self w)) = Some symbol →
  states (self w) !! current_state (self w) = Some row →
  row !! symbol = Some ins →
  states (self w) !! Transition.next_state ins = Some x →
  Transition.direction ins ≠ Direction.STOP →
  let t1 := <[Z.to_nat (head_position (self w)) := Transition.write_symbol ins]> t in
  let p := head_position (self w) + Direction.to_int (Transition.direction ins) in
  ∃ w' t', run_transition w = (Ok 1, w')
    ∧ tape_contents w' = Some t'
    ∧ (p = -1 → t' = BLANK_SYMBOL :: t1 ∧ head_position (self w') = 0)
    ∧ (p = Z.of_nat (length t) →
       t' = t1 ++ [BLANK_SYMBOL] ∧ head_position (self w') = Z.of_nat (length t))
    ∧ (0 ≤ p < Z.of_nat (length t) → t' = t1 ∧ head_position (self w') = p)
    ∧ 0 ≤ head_position (self w') < Z.of_nat (length t').
Proof.
  intros Ht Hhead Hsym Hrow Hins Hnext Hd t1 p.
  assert (enabled w t (Z.to_nat (head_position (self w))) symbol row ins) as Hen.
  { unfold enabled. split_and!; try done. by apply py_index_in_range. }
  pose proof (to_int_range _ Hd) as Hrange.
  pose proof (written_tape w t (Z.to_nat (head_position (self w))) ins Ht) as Hw.
  pose proof (lookup_lt_Some _ _ _ Hw) as Hlt.
  assert (length t1 = length t) as Hlen by apply length_insert.
  pose proof (run_transition_move _ _ _ _ _ _ _ Hen Hnext Hd) as Hrun.
  clear Hen. subst t1 p. unfold tape_contents, moved, advanced, written in *.
  open_world w. rewrite Hlen in Hrun.
  destruct (Z.eqb_spec (head_position0
                        + Direction.to_int (Transition.direction ins)) (-1)) as [Hp|Hp];
    [|destruct (Z.eqb_spec (head_position0
                        + Direction.to_int (Transition.direction ins))
                 (Z.of_nat (length t))) as [Hp'|Hp']];
    (eexists _, _; split; [exact Hrun|]); fields.
  - split; [by apply list_lookup_insert_eq|].
    unfold LEFT_END. cbn [length]. split_and!; intros; (done || lia).
  - split; [by apply list_lookup_insert_eq|].
    rewrite length_app. cbn [length]. split_and!; intros; (done || lia).
  - split; [exact Hw|]. split_and!; intros; (done || lia).
Qed.

Lemma head_movement_extends_tape_witness :
  ∃ w' t', run_transition left_machine = (Ok 1, w')
    ∧ tape_contents w' = Some t'
    ∧ (0 + -1 = -1 → t' = BLANK_SYMBOL :: [py "1"] ∧ head_position (self w') = 0)
    ∧ (0 + -1 = 1 → t' = [py "1"] ++ [BLANK_SYMBOL] ∧ head_position (self w') = 1)
    ∧ (0 ≤ 0 + -1 < 1 → t' = [py "1"] ∧ head_position (self w') = 0 + -1)
    ∧ 0 ≤ head_position (self w') < Z.of_nat (length t').
Proof.
  apply (head_movement_extends_tape left_machine [BLANK_SYMBOL] (py "_")
           {[ py "_" := Transition.mk (py "q0") (py "1") Direction.LEFT ]}
           (Transition.mk (py "q0") (py "1") Direction.LEFT)
           {[ py "_" := Transition.mk (py "q0") (py "1") Direction.LEFT ]});
    vm_compute; (reflexivity || (split; congruence) || discriminate || idtac).
Defined.

(** ** Replacing the tape *)

Lemma set_tape_live (w : world) (s : nat) (v : list str) :
  heap w !! s = Some v →
  set_tape s w
  = (Ok tt,
     match v with
     | [] => World (heap w ++ [[BLANK_SYMBOL]])
               (with_head_position LEFT_END
                  (with_current_state (py "q0") (with_tape (length (heap w)) (self w))))
     | _ => World (heap w)
              (with_head_position LEFT_END
                 (with_current_state (py "q0") (with_tape s (self w))))
     end).
Proof.
  intros Hs. unfold set_tape.
  rewrite (bind_Ok _ _ _ _ _ (list_get_eq _ _ _ Hs)).
  destruct v as [|c v]; [|by msimpl].
  unfold list_new at 1. unfold bind at 1. by msimpl.
Qed.

(** C9. [set_tape(s)] makes [s] the tape, or a new one-cell blank list
    when [s] is empty; the current state becomes [q0] and the head
    position 0; the step count, the history, the table, the symbol set
    and the saved snapshot are as before, and so is every list of the
    store. *)
Theorem set_tape_frame (w : world) (s : nat) (v : list str) :
  heap w !! s = Some v →
  ∃ w', set_tape s w = (Ok tt, w')
    ∧ tape_contents w' = Some (match v with [] => [BLANK_SYMBOL] | _ => v end)
    ∧ (v ≠ [] → tape (self w') = s ∧ heap w' = heap w)
    ∧ (v = [] → tape (self w') = length (heap w)
                ∧ heap w' = heap w ++ [[BLANK_SYMBOL]])
    ∧ current_state (self w') = py "q0"
    ∧ head_position (self w') = 0
    ∧ step_count (self w') = step_count (self w)
    ∧ history (self w') = history (self w)
    ∧ states (self w') = states (self w)
    ∧ symbols (self w') = symbols (self w)
    ∧ saved_state (self w') = saved_state (self w).
Proof.
  intros Hs. eexists. split; [by apply set_tape_live|].
  unfold tape_contents. destruct v as [|c v]; fields.
  - split_and!; try done. by apply list_lookup_middle.
  - by split_and!.
Qed.

Lemma set_tape_frame_witness :
  ∃ w', set_tape 2 stepped_machine = (Ok tt, w')
    ∧ tape_contents w' = Some [py "a"; py "b"]
    ∧ ([py "a"; py "b"] ≠ [] →
       tape (self w') = 2%nat ∧ heap w' = heap stepped_machine)
    ∧ ([py "a"; py "b"] = [] →
       tape (self w') = length (heap stepped_machine)
       ∧ heap w' = heap stepped_machine ++ [[BLANK_SYMBOL]])
    ∧ current_state (self w') = py "q0"
    ∧ head_position (self w') = 0
    ∧ step_count (self w') = step_count (self stepped_machine)
    ∧ history (self w') = history (self stepped_machine)
    ∧ states (self w') = states (self stepped_machine)
    ∧ symbols (self w') = symbols (self stepped_machine)
    ∧ saved_state (self w') = saved_state (self stepped_machine).
Proof.
  apply (set_tape_frame stepped_machine 2 [py "a"; py "b"]). vm_compute. reflexivity.
Defined.

Example set_tape_on_stepped_machine :
  step_count (self stepped_machine) = 1
  ∧ length (history (self stepped_machine)) = 1%nat
  ∧ head_position (self stepped_machine) = 1
  ∧ step_count (self (snd (set_tape 2 stepped_machine))) = 1
  ∧ length (history (self (snd (set_tape 2 stepped_machine)))) = 1%nat
  ∧ head_position (self (snd (set_tape 2 stepped_machine))) = 0.
Proof. by vm_compute. Qed.

(** ** Running to the halt *)

(** C2. The machine with table [{q0: {'0': "1 q0 >", '_': "_ q0 !"}}]
    and tape [['0', '0']]: [run()] returns after exactly three steps
    (two iterations are not enough, any number from three on is), the
    third step being the halting one; the tape is then
    [['1', '1', '_']], the state [q0] and the step count 3. *)
Theorem run_flip_machine :
  states (self flip_machine)
    = {[ py "q0" := {[ py "0" := Transition.mk (py "q0") (py "1") Direction.RIGHT;
                       py "_" := Transition.mk (py "q0") (py "_") Direction.STOP ]} ]}
  ∧ tape_contents flip_machine = Some [py "0"; py "0"]
  ∧ run 2 flip_machine = None
  ∧ ∃ w2 w3, steps 2 flip_machine = Some w2
      ∧ run_transition w2 = (Ok 0, w3)
      ∧ (∀ k, run (3 + k) flip_machine = Some (Ok tt, w3))
      ∧ tape_contents w3 = Some [py "1"; py "1"; py "_"]
      ∧ current_state (self w3) = py "q0"
      ∧ step_count (self w3) = 3.
Proof.
  split; [by vm_compute|]. split; [by vm_compute|]. split; [by vm_compute|].
  eexists _, _. split; [vm_compute; reflexivity|].
  split; [vm_compute; reflexivity|].
  split; [intros k; vm_compute; reflexivity|].
  by vm_compute.
Qed.

(** ** Loading a document *)

Lemma new_transition_parsed state symbol instruction tr w :
  Transition.from_str instruction = Ok tr →
  new_transition state symbol instruction w
  = (Ok tt,
     World (heap w)
       (with_symbols ({[ symbol ]} ∪ symbols (self w))
          (with_states
             (<[state := <[symbol := tr]> (default ∅ (states (self w) !! state))]>
                (states (self w)))
             (self w)))).
Proof. intros E. unfold new_transition. rewrite E. by msimpl. Qed.

Lemma new_transition_failed state symbol instruction e w :
  Transition.from_str instruction = Raise e →
  new_transition state symbol instruction w
  = (Raise (InvalidTransitionError state symbol), w).
Proof. intros E. unfold new_transition. by rewrite E. Qed.

(** The rows of a state, in order: the loop stops at the first
    instruction that does not parse, and never touches the store. *)
Lemma load_row state (row : list (str * str)) w :
  ∃ o w', for_each row (λ '(symbol, transition),
                          new_transition state symbol transition) w = (o, w')
    ∧ heap w' = heap w
    ∧ (o = Ok tt ∧ Forall (λ e, ∃ tr, Transition.from_str e.2 = Ok tr) row
       ∨ ∃ symbol ins e, o = Raise (InvalidTransitionError state symbol)
           ∧ (symbol, ins) ∈ row ∧ Transition.from_str ins = Raise e).
Proof.
  revert w. induction row as [|[symbol ins] row IH]; intros w.
  { exists (Ok tt), w. split_and!; try done. left. by split. }
  cbn [for_each]. destruct (Transition.from_str ins) as [tr|e] eqn:E.
  - rewrite (bind_Ok _ _ _ _ _ (new_transition_parsed state symbol _ _ w E)).
    destruct (IH (World (heap w)
       (with_symbols ({[ symbol ]} ∪ symbols (self w))
          (with_states
             (<[state := <[symbol := tr]> (default ∅ (states (self w) !! state))]>
                (states (self w)))
             (self w))))) as (o & w' & -> & Hh & Ho).
    exists o, w'. split_and!; try done.
    destruct Ho as [[-> Hall]|(sy & ins' & e & -> & Hin & He)].
    + left. split; [done|]. constructor; [by exists tr|done].
    + right. exists sy, ins', e. split_and!; try done. by right.
  - rewrite (bind_Raise _ _ _ _ _ (new_transition_failed state symbol _ _ w E)).
    exists (Raise (InvalidTransitionError state symbol)), w. split_and!; try done.
    right. exists symbol, ins, e. split_and!; try done. by left.
Qed.

Lemma load_rows (table : list (str * list (str * str))) w :
  ∃ o w', for_each table (λ '(state_name, state),
             for_each state (λ '(symbol, transition),
               new_transition state_name symbol transition)) w = (o, w')
    ∧ heap w' = heap w
    ∧ (o = Ok tt
         ∧ Forall (λ r, Forall (λ e, ∃ tr, Transition.from_str e.2 = Ok tr) r.2) table
       ∨ ∃ state row symbol ins e, o = Raise (InvalidTransitionError state symbol)
           ∧ (state, row) ∈ table ∧ (symbol, ins) ∈ row
           ∧ Transition.from_str ins = Raise e).
Proof.
  revert w. induction table as [|[state row] table IH]; intros w.
  { exists (Ok tt), w. split_and!; try done. left. by split. }
  cbn [for_each].
  destruct (load_row state row w) as (o1 & w1 & E1 & Hh1 & Ho1).
  destruct Ho1 as [[-> Hall]|(sy & ins & e & -> & Hin & He)].
  - rewrite (bind_Ok _ _ _ _ _ E1).
    destruct (IH w1) as (o & w' & -> & Hh & Ho).
    exists o, w'. split_and!; [done|congruence|].
    destruct Ho as [[-> Hall']|(st & row' & sy & ins & e & -> & Hin & Hin' & He)].
    + left. split; [done|]. by constructor.
    + right. exists st, row', sy, ins, e. split_and!; try done. by right.
  - rewrite (bind_Raise _ _ _ _ _ E1).
    exists (Raise (InvalidTransitionError state sy)), w1. split_and!; try done.
    right. exists state, row, sy, ins, e. split_and!; try done. by left.
Qed.

(** C8. A document in which some instruction string does not parse:
    [load_from_file] raises [InvalidTransitionError], for an entry of
    the document whose instruction does not parse, and so returns no
    machine; every list that was in the store is as before; and a caller
    that loads into its slot for the active machine keeps the machine it
    had. *)
Theorem load_from_file_parse_failure (data : document) (h : store)
    (state : str) (row : list (str * str)) (symbol ins : str) (e : exn) :
  (state, row) ∈ doc_states data → (symbol, ins) ∈ row →
  Transition.from_str ins = Raise e →
  ∃ state' row' symbol' ins' e' h',
    load_from_file data h = (Raise (InvalidTransitionError state' symbol'), h')
    ∧ (state', row') ∈ doc_states data ∧ (symbol', ins') ∈ row'
    ∧ Transition.from_str ins' = Raise e'
    ∧ (∀ l v, h !! l = Some v → h' !! l = Some v)
    ∧ ∀ machine,
        TuringMachineGUI.load_machine machine data h
        = (Some (InvalidTransitionError state' symbol'), machine, h').
Proof.
  intros Hrow Hins He.
  unfold TuringMachineGUI.load_machine, load_from_file.
  assert (heap (__init__ (h ++ [doc_tape data])) !! length h = Some (doc_tape data))
    as Hs.
  { unfold __init__. fields. rewrite <- app_assoc. by apply list_lookup_middle. }
  rewrite (bind_Ok _ _ _ _ _ (set_tape_live _ _ _ Hs)).
  set (w1 := match doc_tape data with [] => _ | _ => _ end).
  destruct (load_rows (doc_states data) w1) as (o & w' & -> & Hh & Ho).
  destruct Ho as [[-> Hall]|(st & row' & sy & ins' & e' & -> & Hin & Hin' & He')].
  { rewrite Forall_forall in Hall. specialize (Hall _ Hrow). cbn in Hall.
    rewrite Forall_forall in Hall. destruct (Hall _ Hins) as [tr Htr].
    cbn in Htr. congruence. }
  exists st, row', sy, ins', e', (heap w'). split_and!; try done.
  intros l v Hl. rewrite Hh.
  assert (∃ extra, heap w1 = h ++ extra) as [extra ->].
  { subst w1. unfold __init__.
    destruct (doc_tape data); fields; rewrite <- !app_assoc; eauto. }
  by apply lookup_app_l_Some.
Qed.

Lemma load_from_file_parse_failure_witness :
  ∃ state' row' symbol' ins' e' h',
    load_from_file short_document [] = (Raise (InvalidTransitionError state' symbol'), h')
    ∧ (state', row') ∈ doc_states short_document ∧ (symbol', ins') ∈ row'
    ∧ Transition.from_str ins' = Raise e'
    ∧ (∀ l v, ([] : store) !! l = Some v → h' !! l = Some v)
    ∧ ∀ machine,
        TuringMachineGUI.load_machine machine short_document []
        = (Some (InvalidTransitionError state' symbol'), machine, h').
Proof.
  apply (load_from_file_parse_failure short_document [] (py "q0")
           [(py "_", py "_ q0 !"); (py "0", py "1 q0")] (py "0") (py "1 q0")
           ValueError).
  - vm_compute. repeat constructor.
  - vm_compute. repeat constructor.
  - vm_compute. reflexivity.
Defined.

Example load_short_document :
  fst (load_from_file short_document [])
  = Raise (InvalidTransitionError (py "q0") (py "0")).
Proof. vm_compute. reflexivity. Qed.

(** ** Machines a caller can obtain are consistent *)

Lemma heap_le_refl h : heap_le h h.
Proof. intros l t Hl. eauto. Qed.

Lemma heap_le_trans h1 h2 h3 : heap_le h1 h2 → heap_le h2 h3 → heap_le h1 h3.
Proof.
  intros H12 H23 l t Hl. destruct (H12 _ _ Hl) as (t' & Hl' & ?).
  destruct (H23 _ _ Hl') as (t'' & ? & ?). exists t''. split; [done|lia].
Qed.

Lemma heap_le_app h extra : heap_le h (h ++ extra).
Proof. intros l t Hl. exists t. split; [by apply lookup_app_l_Some|done]. Qed.

Lemma heap_le_insert h l t t' :
  h !! l = Some t → (length t ≤ length t')%nat → heap_le h (<[l := t']> h).
Proof.
  intros Hl Hlen k u Hk. destruct (decide (k = l)) as [->|Hne].
  - exists t'. split; [apply list_lookup_insert_eq; by eapply lookup_lt_Some|].
    congruence.
  - exists u. by rewrite list_lookup_insert_ne.
Qed.

Lemma table_le_refl m : table_le m m.
Proof. by intros k. Qed.

Lemma table_le_insert m k v : table_le m (<[k := v]> m).
Proof.
  intros k' Hk'. destruct (decide (k = k')) as [->|Hne].
  - rewrite lookup_insert_eq. eauto.
  - by rewrite lookup_insert_ne.
Qed.

Lemma snapshot_ok_mono h h' m m' s :
  heap_le h h' → table_le m m' → snapshot_ok h m s → snapshot_ok h' m' s.
Proof.
  intros Hh Hm [Hs (t & Ht & Hhd)]. split; [by apply Hm|].
  destruct (Hh _ _ Ht) as (t' & Ht' & Hlen). exists t'. split; [done|lia].
Qed.

(** The invariant carries over to a world whose store and table have
    only grown, once its own state, head and newest entries are in
    order. *)
Lemma consistent_grown w w' :
  consistent w →
  heap_le (heap w) (heap w') →
  table_le (states (self w)) (states (self w')) →
  (length (history (self w')) ≤ MAX_HISTORY_LEN)%nat →
  is_Some (states (self w') !! current_state (self w')) →
  (∃ t, tape_contents w' = Some t
        ∧ 0 ≤ head_position (self w') < Z.of_nat (length t)) →
  (∀ s, s ∈ history (self w') →
        s ∈ history (self w) ∨ snapshot_ok (heap w') (states (self w')) s) →
  (∀ s, saved_state (self w') = Some s →
        saved_state (self w) = Some s ∨ snapshot_ok (heap w') (states (self w')) s) →
  consistent w'.
Proof.
  intros (_ & Hq0 & _ & _ & Hhist & Hsaved) Hh Hm Hlen Hcur Htape Hnew Hsv.
  split_and!; try done.
  - by apply Hm.
  - rewrite Forall_forall in Hhist |- *. intros s Hs.
    destruct (Hnew s Hs) as [Hold|?]; [|done].
    by apply (snapshot_ok_mono (heap w) _ (states (self w))), Hhist.
  - intros s Hs. destruct (Hsv s Hs) as [Hold|?]; [|done].
    by apply (snapshot_ok_mono (heap w) _ (states (self w))), Hsaved.
Qed.

Lemma to_int_bounds d : -1 ≤ Direction.to_int d ≤ 1.
Proof. destruct d; cbn; lia. Qed.

Lemma elem_of_pushed s h info : s ∈ pushed h info → s ∈ h ∨ s = info.
Proof.
  rewrite pushed_snoc, elem_of_app, list_elem_of_singleton.
  intros [Hs|Hs]; [left|by right].
  destruct (_ <=? _)%nat; [|done]. by apply (subseteq_drop 1 h).
Qed.

Lemma consistent_init h : consistent (__init__ h).
Proof.
  unfold consistent, __init__, tape_contents. fields. split_and!.
  - cbn. lia.
  - rewrite lookup_singleton_eq. eauto.
  - rewrite lookup_singleton_eq. eauto.
  - exists [BLANK_SYMBOL]. split; [by apply list_lookup_middle|done].
  - constructor.
  - done.
Qed.

Lemma consistent_same_machine w h' :
  consistent w → heap_le (heap w) h' → consistent (World h' (self w)).
Proof.
  intros Hc Hh. pose proof Hc as (Hlen & _ & Hcur & (t & Ht & Hhd) & _).
  apply (consistent_grown w); fields; auto using table_le_refl.
  destruct (Hh _ _ Ht) as (t' & Ht' & ?). exists t'. split; [done|lia].
Qed.

Lemma consistent_new_transition state symbol instruction w :
  consistent w → consistent (snd (new_transition state symbol instruction w)).
Proof.
  intros Hc. destruct (Transition.from_str instruction) as [tr|e] eqn:E.
  2:{ by rewrite (new_transition_failed _ _ _ _ _ E). }
  rewrite (new_transition_parsed _ _ _ _ _ E).
  pose proof Hc as (Hlen & _ & Hcur & Htape & _).
  apply (consistent_grown w); fields;
    auto using heap_le_refl, table_le_insert.
  by apply table_le_insert.
Qed.

Lemma consistent_set_tape s w :
  consistent w → consistent (snd (set_tape s w)).
Proof.
  intros Hc. destruct (heap w !! s) as [v|] eqn:Hs; last first.
  { unfold set_tape. by rewrite (bind_Raise _ _ _ _ _ (list_get_dangling _ _ Hs)). }
  rewrite (set_tape_live _ _ _ Hs).
  pose proof Hc as (Hlen & Hq0 & _).
  apply (consistent_grown w); unfold tape_contents;
    destruct v as [|c v]; fields; auto using heap_le_app, heap_le_refl, table_le_refl.
  - eexists. split; [by apply list_lookup_middle|done].
  - eexists. split; [done|]. unfold LEFT_END. cbn [length]. lia.
Qed.

Lemma snapshot_ok_snapshot w h' t :
  consistent w → tape_contents w = Some t →
  h' !! length (heap w) = Some t →
  snapshot_ok h' (states (self w)) (snapshot w).
Proof.
  intros (_ & _ & Hcur & (t' & Ht' & Hhd) & _) Ht Hcopy.
  assert (t' = t) as -> by congruence.
  split; [done|]. by exists t.
Qed.

Lemma consistent_written w t i symbol row ins :
  consistent w → enabled w t i symbol row ins →
  consistent (written t i ins w).
Proof.
  intros Hc Hen. pose proof Hen as (Ht & Hi & _).
  pose proof Hc as (Hlen & _ & Hcur & (t' & Ht' & Hhd) & _).
  pose proof (written_tape w t i ins Ht) as Hw.
  apply (consistent_grown w); auto using table_le_refl.
  - unfold written. fields.
    apply (heap_le_trans _ (heap w ++ [t])); [apply heap_le_app|].
    apply (heap_le_insert _ _ t); [by apply lookup_app_l_Some|].
    by rewrite length_insert.
  - by apply length_pushed.
  - eexists. split; [exact Hw|]. rewrite length_insert.
    unfold tape_contents in Ht'. unfold written. fields. congruence.
  - intros s [?| ->]%elem_of_pushed; [by left|right].
    by apply (snapshot_ok_snapshot w _ t), written_copy.
Qed.

Lemma consistent_advanced ins w x :
  consistent w → states (self w) !! Transition.next_state ins = Some x →
  consistent (advanced ins w).
Proof.
  intros Hc Hnext. pose proof Hc as (Hlen & _ & _ & Htape & _).
  apply (consistent_grown w); fields; eauto using heap_le_refl, table_le_refl.
Qed.

Lemma consistent_moved d t w :
  consistent w → tape_contents w = Some t → consistent (moved d t w).
Proof.
  intros Hc Ht. pose proof Hc as (Hlen & _ & Hcur & (t' & Ht' & Hhd) & _).
  assert (t' = t) as -> by congruence.
  pose proof (to_int_bounds d) as Hd. pose proof (lookup_lt_Some _ _ _ Ht) as Hlt.
  destruct (moved_fields d t w) as (Ecs & Est & Etp & _ & Esv & _ & Ehi).
  apply (consistent_grown w); rewrite ?Ecs, ?Est, ?Esv, ?Ehi;
    auto using table_le_refl.
  - unfold moved. repeat case_match; fields; [| |apply heap_le_refl];
      (apply (heap_le_insert _ _ t); [done|]); rewrite ?length_app; cbn [length]; lia.
  - unfold tape_contents, moved.
    destruct (Z.eqb_spec (head_position (self w) + Direction.to_int d) (-1));
      [|destruct (Z.eqb_spec (head_position (self w) + Direction.to_int d)
                   (Z.of_nat (length t)))]; fields.
    + eexists. split; [by apply list_lookup_insert_eq|].
      unfold LEFT_END. cbn [length]. lia.
    + eexists. split; [by apply list_lookup_insert_eq|].
      rewrite length_app. cbn [length]. lia.
    + exists t. split; [done|lia].
Qed.

Lemma consistent_run_transition w :
  consistent w → consistent (snd (run_transition w)).
Proof.
  intros Hc.
  destruct (run_transition_cases w) as [(t & i & symbol & row & ins & Hen)|(e & -> & _)];
    [|done].
  pose proof (consistent_written _ _ _ _ _ _ Hc Hen) as Hw.
  pose proof Hen as (Ht & _).
  destruct (states (self w) !! Transition.next_state ins) as [x|] eqn:Hnext; last first.
  { by rewrite (run_transition_unknown _ _ _ _ _ _ Hen Hnext). }
  pose proof (consistent_advanced ins _ x Hw Hnext) as Ha.
  destruct (decide (Transition.direction ins = Direction.STOP)) as [Hd|Hd].
  - by rewrite (run_transition_halt _ _ _ _ _ _ _ Hen Hnext Hd).
  - rewrite (run_transition_move _ _ _ _ _ _ _ Hen Hnext Hd).
    apply consistent_moved; [done|]. by apply written_tape.
Qed.

Lemma consistent_get_state_info w :
  consistent w → consistent (snd (get_state_info w)).
Proof.
  intros Hc. pose proof Hc as (_ & _ & _ & (t & Ht & _) & _).
  rewrite (get_state_info_eq _ _ Ht).
  apply consistent_same_machine; [done|apply heap_le_app].
Qed.

Lemma consistent_save_tape w :
  consistent w → consistent (snd (save_tape w)).
Proof.
  intros Hc. pose proof Hc as (Hlen & _ & Hcur & (t & Ht & Hhd) & _).
  unfold save_tape. rewrite (bind_Ok _ _ _ _ _ (get_state_info_eq _ _ Ht)).
  unfold set_saved_state, update. fields.
  apply (consistent_grown w); fields; auto using heap_le_app, table_le_refl.
  - exists t. unfold tape_contents in *. fields.
    split; [by apply lookup_app_l_Some|done].
  - intros s [= <-]. right.
    apply (snapshot_ok_snapshot w _ t); [done..|]. by apply list_lookup_middle.
Qed.

Lemma restore_eq (w : world) (prev : StateInfo.t) (v : list str) :
  heap w !! StateInfo.tape prev = Some v →
  (set_head_position (StateInfo.head_position prev);;;
   let* tp := list_copy (StateInfo.tape prev) in
   set_tape_ref tp;;;
   set_current_state (StateInfo.current_state prev);;;
   set_step_count (StateInfo.step_count prev)) w
  = (Ok tt,
     World (heap w ++ [v])
           (mk (StateInfo.current_state prev) (states (self w)) (length (heap w))
               (StateInfo.head_position prev) (StateInfo.step_count prev)
               (saved_state (self w)) (symbols (self w)) (history (self w)))).
Proof.
  intros Hv. open_world w. msimpl. mlist list_copy_eq ltac:(exact Hv). done.
Qed.

Lemma consistent_restored w prev hist :
  consistent w → snapshot_ok (heap w) (states (self w)) prev →
  (length hist ≤ MAX_HISTORY_LEN)%nat →
  (∀ s, s ∈ hist → s ∈ history (self w)) →
  ∀ v, heap w !! StateInfo.tape prev = Some v →
  consistent
    (World (heap w ++ [v])
           (mk (StateInfo.current_state prev) (states (self w)) (length (heap w))
               (StateInfo.head_position prev) (StateInfo.step_count prev)
               (saved_state (self w)) (symbols (self w)) hist)).
Proof.
  intros Hc [Hst (t & Ht & Hhd)] Hlen Hsub v Hv.
  assert (t = v) as -> by congruence.
  apply (consistent_grown w); fields; auto using heap_le_app, table_le_refl.
  exists v. split; [by apply list_lookup_middle|done].
Qed.

Lemma consistent_load_tape w :
  consistent w → consistent (snd (load_tape w)).
Proof.
  intros Hc. unfold load_tape. rewrite bind_attr.
  destruct (saved_state (self w)) as [saved|] eqn:Hsaved; [|done].
  pose proof Hc as (Hlen & _ & _ & _ & _ & Hsv).
  pose proof (Hsv _ Hsaved) as Hok. pose proof Hok as (_ & v & Hv & _).
  rewrite (restore_eq _ _ _ Hv). by apply consistent_restored.
Qed.

Lemma consistent_step_back w :
  consistent w → consistent (snd (step_back w)).
Proof.
  intros Hc. destruct (last (history (self w))) as [prev|] eqn:Hlast; last first.
  { apply last_None in Hlast. by rewrite (step_back_empty _ Hlast). }
  pose proof Hc as (Hlen & _ & _ & _ & Hhist & _).
  apply last_Some in Hlast as Hsplit. destruct Hsplit as [h' Hh'].
  assert (snapshot_ok (heap w) (states (self w)) prev) as Hok.
  { rewrite Forall_forall in Hhist. apply Hhist. rewrite Hh'.
    apply elem_of_app. right. by apply list_elem_of_singleton. }
  pose proof Hok as (_ & v & Hv & _).
  rewrite (step_back_eq _ _ _ Hlast Hv). fields.
  rewrite Hh', removelast_last.
  apply consistent_restored; try done.
  - rewrite Hh', length_app in Hlen. lia.
  - intros s Hs. rewrite Hh'. apply elem_of_app. by left.
Qed.

(** Every machine a caller can obtain is consistent with its store:
    the history is within its cap, the current state is a key of the
    table, and the head is on the tape. *)
Theorem reachable_consistent w : reachable w → consistent w.
Proof.
  induction 1;
    auto using consistent_init, consistent_new_transition, consistent_set_tape,
      consistent_run_transition, consistent_get_state_info, consistent_save_tape,
      consistent_load_tape, consistent_step_back.
  apply (consistent_same_machine w); [done|apply heap_le_app].
Qed.

(** ** The cap on the history *)

Lemma run_transition_Ok w r w' :
  run_transition w = (Ok r, w') →
  history (self w') = pushed (history (self w)) (snapshot w)
  ∧ step_count (self w') = step_count (self w) + 1.
Proof.
  intros Hrun.
  destruct (run_transition_cases w) as [(t & i & symbol & row & ins & Hen)|(e & He & _)];
    [|congruence].
  destruct (states (self w) !! Transition.next_state ins) as [x|] eqn:Hnext; last first.
  { by rewrite (run_transition_unknown _ _ _ _ _ _ Hen Hnext) in Hrun. }
  destruct (decide (Transition.direction ins = Direction.STOP)) as [Hd|Hd].
  - rewrite (run_transition_halt _ _ _ _ _ _ _ Hen Hnext Hd) in Hrun.
    by injection Hrun as <- <-.
  - rewrite (run_transition_move _ _ _ _ _ _ _ Hen Hnext Hd) in Hrun.
    injection Hrun as <- <-.
    destruct (moved_fields (Transition.direction ins)
                (<[i:=Transition.write_symbol ins]> t)
                (advanced ins (written t i ins w))) as (_&_&_&->&_&_&->).
    done.
Qed.

Lemma steps_unfold n w :
  steps (S n) w
  = match run_transition w with
    | (Ok _, w') => steps n w'
    | (Raise _, _) => None
    end.
Proof. done. Qed.

Lemma steps_S n w :
  steps (S n) w
  = match steps n w with
    | Some w' => match run_transition w' with
                 | (Ok _, w'') => Some w''
                 | (Raise _, _) => None
                 end
    | None => None
    end.
Proof.
  revert w. induction n as [|n IH]; intros w.
  - cbn [steps]. by destruct (run_transition w) as [[r|e] w'].
  - rewrite (steps_unfold (S n) w), (steps_unfold n w).
    destruct (run_transition w) as [[r|e] w']; [|done]. apply IH.
Qed.

Lemma rev_lookup_pushed h info j s :
  rev (pushed h info) !! S j = Some s → rev h !! j = Some s.
Proof.
  rewrite pushed_snoc, rev_unit. cbn [lookup list_lookup].
  destruct (_ <=? _)%nat; [|done].
  destruct h as [|x h]; [done|]. cbn [drop rev]. apply lookup_app_l_Some.
Qed.

(** After [n] steps the [n] newest entries of the history, as far as
    they are still there, are the snapshots of those steps, newest
    first. *)
Lemma steps_history n w w' :
  steps n w = Some w' →
  (length (history (self w)) ≤ MAX_HISTORY_LEN)%nat →
  step_count (self w') = step_count (self w) + Z.of_nat n
  ∧ (length (history (self w')) ≤ MAX_HISTORY_LEN)%nat
  ∧ ∀ j s, (j < n)%nat → rev (history (self w')) !! j = Some s →
           StateInfo.step_count s = step_count (self w) + Z.of_nat n - 1 - Z.of_nat j.
Proof.
  intros Hsteps Hlen. revert w' Hsteps. induction n as [|n IH]; intros w'.
  { intros [= <-]. split_and!; [lia|done|intros; lia]. }
  rewrite steps_S. destruct (steps n w) as [w1|]; [|done].
  destruct (IH w1 eq_refl) as (Hsc & Hlen1 & Hentries).
  destruct (run_transition w1) as [[r|e] w2] eqn:Hrun; [|done].
  intros [= <-]. destruct (run_transition_Ok _ _ _ Hrun) as [-> ->].
  split_and!; [lia|by apply length_pushed|].
  intros [|j] s Hj.
  - rewrite pushed_snoc, rev_unit. intros [= <-]. cbn. lia.
  - intros Hs%rev_lookup_pushed. rewrite (Hentries j s) by (done || lia). lia.
Qed.

Lemma step_back_effect w :
  history (self (snd (step_back w))) = removelast (history (self w))
  ∧ (step_count (self (snd (step_back w))) = step_count (self w)
     ∨ ∃ s, last (history (self w)) = Some s
            ∧ step_count (self (snd (step_back w))) = StateInfo.step_count s).
Proof.
  destruct (last (history (self w))) as [prev|] eqn:Hlast; last first.
  { apply last_None in Hlast. rewrite (step_back_empty _ Hlast), Hlast. auto. }
  destruct (heap w !! StateInfo.tape prev) as [v|] eqn:Hv.
  { rewrite (step_back_eq _ _ _ Hlast Hv). fields. eauto. }
  unfold step_back. open_world w. msimpl. rewrite Hlast. msimpl.
  unfold list_copy. msimpl.
  erewrite bind_Raise by (apply list_get_dangling; fields; exact Hv).
  fields. auto.
Qed.

Lemma undos_step_counts c k w :
  c < step_count (self w) →
  (∀ s, s ∈ history (self w) → c < StateInfo.step_count s) →
  c < step_count (self (undos k w)).
Proof.
  revert w. induction k as [|k IH]; intros w Hw Hh; [done|].
  cbn [undos]. destruct (step_back_effect w) as [Ehist Esc].
  apply IH.
  - destruct Esc as [->|(s & Hs & ->)]; [done|].
    apply Hh. apply last_Some in Hs as [l ->].
    apply elem_of_app. right. by apply list_elem_of_singleton.
  - intros s Hs. apply Hh. rewrite Ehist in Hs.
    destruct (history (self w)) as [|x l] using rev_ind; [done|].
    rewrite removelast_last in Hs. apply elem_of_app. by left.
Qed.

(** C4. On every machine a caller can obtain the history holds at most
    [MAX_HISTORY_LEN] = 1000 entries. A step that returns normally
    leaves the history it found, less its oldest entry if it was full,
    followed by the snapshot taken before the step. And after
    [MAX_HISTORY_LEN + 1] such steps every entry of the history was
    taken after the first step, so that no number of [step_back]s
    brings the machine back to the step count it had before the first
    step. *)
Theorem history_capped_fifo (w : world) :
  reachable w →
  (length (history (self w)) ≤ MAX_HISTORY_LEN)%nat
  ∧ (∀ r w', run_transition w = (Ok r, w') →
       history (self w')
       = (if (MAX_HISTORY_LEN <=? length (history (self w)))%nat
          then drop 1 (history (self w)) else history (self w))
         ++ [snapshot w]
       ∧ (length (history (self w')) ≤ MAX_HISTORY_LEN)%nat)
  ∧ (∀ w', steps (S MAX_HISTORY_LEN) w = Some w' →
       (length (history (self w')) ≤ MAX_HISTORY_LEN)%nat
       ∧ (∀ s, s ∈ history (self w') →
               step_count (self w) < StateInfo.step_count s)
       ∧ ∀ k, step_count (self w) < step_count (self (undos k w'))).
Proof.
  intros Hr. destruct (reachable_consistent w Hr) as (Hlen & _).
  split; [done|]. split.
  - intros r w' Hrun. destruct (run_transition_Ok _ _ _ Hrun) as [-> _].
    split; [apply pushed_snoc|by apply length_pushed].
  - intros w' Hsteps.
    destruct (steps_history _ _ _ Hsteps Hlen) as (Hsc & Hlen' & Hentries).
    assert (∀ s, s ∈ history (self w') →
                 step_count (self w) < StateInfo.step_count s) as Hnew.
    { intros s Hs. apply list_elem_of_In, in_rev, list_elem_of_In in Hs.
      apply list_elem_of_lookup in Hs as [j Hj].
      pose proof (lookup_lt_Some _ _ _ Hj) as Hlt. rewrite length_rev in Hlt.
      rewrite (Hentries j s) by (done || lia). lia. }
    split_and!; [done..|].
    intros k. apply undos_step_counts; [lia|done].
Qed.

Lemma idle_machine_reachable : reachable idle_machine.
Proof. apply reach_new_transition, reach_init. Qed.

Lemma history_capped_fifo_witness :
  (length (history (self idle_machine)) ≤ MAX_HISTORY_LEN)%nat
  ∧ history (self (snd (run_transition idle_machine))) = [snapshot idle_machine]
  ∧ ∃ w', steps (S MAX_HISTORY_LEN) idle_machine = Some w'
      ∧ (length (history (self w')) ≤ MAX_HISTORY_LEN)%nat
      ∧ (∀ s, s ∈ history (self w') →
              step_count (self idle_machine) < StateInfo.step_count s)
      ∧ ∀ k, step_count (self idle_machine) < step_count (self (undos k w')).
Proof.
  destruct (history_capped_fifo idle_machine idle_machine_reachable)
    as (Hlen & Hstep & Hsteps).
  split; [exact Hlen|]. split.
  - destruct (Hstep 1 (snd (run_transition idle_machine))) as [-> _];
      vm_compute; reflexivity.
  - destruct (steps (S MAX_HISTORY_LEN) idle_machine) as [w'|] eqn:E.
    + exists w'. split; [reflexivity|]. apply Hsteps. reflexivity.
    + vm_compute in E. discriminate E.
Defined.

(** The cap is reached: after [MAX_HISTORY_LEN] steps of a fresh machine
    as many [step_back]s lead back to step count 0, and one step more
    makes that impossible. *)
Example idle_machine_cap :
  (∃ w', steps MAX_HISTORY_LEN idle_machine = Some w'
         ∧ length (history (self w')) = MAX_HISTORY_LEN
         ∧ step_count (self (undos MAX_HISTORY_LEN w')) = 0)
  ∧ (∃ w', steps (S MAX_HISTORY_LEN) idle_machine = Some w'
           ∧ length (history (self w')) = MAX_HISTORY_LEN
           ∧ step_count (self (undos (S MAX_HISTORY_LEN) w')) = 1).
Proof.
  split; (eexists; split; [vm_compute; reflexivity|]); by vm_compute.
Qed.

(** ** What a step can raise *)

(** X1: on a machine a caller can obtain, a step either returns 0 or 1 or
    raises one of the machine's own two errors; no index, key or
    reference fails. *)
Theorem reachable_step_outcomes w :
  reachable w →
  ∃ symbol, fst (current_symbol w) = Ok symbol
    ∧ (fst (run_transition w) = Ok 0
       ∨ fst (run_transition w) = Ok 1
       ∨ fst (run_transition w) = Raise (NoTransitionError symbol)
       ∨ ∃ s, fst (run_transition w) = Raise (InvalidStateError s)).
Proof.
  intros (_ & _ & [row Hrow] & (t & Ht & Hhd) & _)%reachable_consistent.
  pose proof (py_index_in_range _ _ Hhd) as Hi.
  destruct (lookup_lt_is_Some_2 t _ (py_index_lt _ _ _ Hi)) as [symbol Hsym].
  pose proof (current_symbol_eq _ _ _ _ Ht Hi Hsym) as Hcur.
  exists symbol. split; [by rewrite Hcur|].
  destruct (row !! symbol) as [ins|] eqn:Hins; last first.
  { right. right. left.
    unfold run_transition. rewrite (bind_Ok _ _ _ _ _ Hcur).
    unfold states_getitem. msimpl. rewrite Hrow. msimpl. by rewrite Hins. }
  assert (enabled w t (Z.to_nat (head_position (self w))) symbol row ins) as Hen
    by done.
  destruct (states (self w) !! Transition.next_state ins) as [x|] eqn:Hnext; last first.
  { right. right. right. eexists.
    by rewrite (run_transition_unknown _ _ _ _ _ _ Hen Hnext). }
  destruct (decide (Transition.direction ins = Direction.STOP)) as [Hd|Hd].
  - left. by rewrite (run_transition_halt _ _ _ _ _ _ _ Hen Hnext Hd).
  - right. left. by rewrite (run_transition_move _ _ _ _ _ _ _ Hen Hnext Hd).
Qed.

(** ** [run] and [load_from_file] stay among those machines *)

Lemma reachable_run fuel w o w' :
  reachable w → run fuel w = Some (o, w') → reachable w'.
Proof.
  revert w. induction fuel as [|fuel IH]; intros w Hr; [done|].
  cbn [run]. pose proof (reach_run_transition w Hr) as Hr'.
  destruct (run_transition w) as [[r|e] w1]; cbn [snd] in Hr'.
  - destruct (r =? 0); [by intros [= <- <-]|by apply IH].
  - by intros [= <- <-].
Qed.

Lemma reachable_for_each {A} (l : list A) (body : A → M unit) w :
  (∀ x w, reachable w → reachable (snd (body x w))) →
  reachable w → reachable (snd (for_each l body w)).
Proof.
  intros Hbody. revert w. induction l as [|x l IH]; intros w Hr; [done|].
  cbn [for_each]. unfold bind. pose proof (Hbody x w Hr) as Hr'.
  destruct (body x w) as [[a|e] w1]; cbn [snd] in Hr'; [by apply IH|done].
Qed.

Lemma reachable_load_from_file data h m h' :
  load_from_file data h = (Ok m, h') → reachable (World h' m).
Proof.
  unfold load_from_file.
  set (w := __init__ (h ++ [doc_tape data])).
  assert (reachable w) as Hr by apply reach_init.
  unfold bind. pose proof (reach_set_tape w (length h) Hr) as Hr1.
  destruct (set_tape (length h) w) as [[a|e] w1]; cbn [snd] in Hr1; [|done].
  match goal with
  | |- context [for_each ?l ?f w1] =>
      assert (reachable (snd (for_each l f w1))) as Hr2
  end.
  { apply reachable_for_each; [|done]. intros [state row] w2 Hw2.
    apply reachable_for_each; [|done]. intros [symbol ins] w3 Hw3.
    by apply reach_new_transition. }
  destruct (for_each _ _ w1) as [[a'|e] [h2 m2]]; cbn [snd] in Hr2; [|done].
  by intros [= <- <-].
Qed.

(** ** The runtime model on examples *)

Example split_ex :
  split (py "  1   q0 > ") = [py "1"; py "q0"; py ">"]
  ∧ split (py "1 q0") = [py "1"; py "q0"]
  ∧ split (py "   ") = [].
Proof. by vm_compute. Qed.

Example from_str_ex :
  Transition.from_str (py "  1   q0 > ")
    = Ok (Transition.mk (py "q0") (py "1") Direction.RIGHT)
  ∧ Transition.from_str (py "1 q0") = Raise ValueError
  ∧ Transition.from_str (py "1 q0 > .") = Raise ValueError
  ∧ Transition.from_str (py "1 q0 x") = Raise InvalidDirectionError.
Proof. by vm_compute. Qed.

Example py_index_ex :
  py_index 3 0 = Some 0%nat ∧ py_index 3 2 = Some 2%nat ∧ py_index 3 3 = None
  ∧ py_index 3 (-1) = Some 2%nat ∧ py_index 3 (-3) = Some 0%nat
  ∧ py_index 3 (-4) = None ∧ py_index 0 0 = None.
Proof. by vm_compute. Qed.

Example undo_on_fresh_machine : step_back (__init__ []) = (Ok 0, __init__ []).
Proof. by vm_compute. Qed.

(** The step writes into the live list and extends it in place; the
    snapshot keeps its own copy, which [step_back] copies back. *)
Example step_then_undo_on_right_machine :
  tape_contents right_machine = Some [py "_"]
  ∧ tape_contents (snd (run_transition right_machine)) = Some [py "1"; py "_"]
  ∧ tape_contents (snd (step_back (snd (run_transition right_machine))))
    = Some [py "_"].
Proof. by vm_compute. Qed.

(** [set_tape] keeps the caller's list: the list the caller built for
    [flip_machine], at reference 1, is the one the run writes to. *)
Example run_writes_callers_list :
  tape (self flip_machine) = 1%nat
  ∧ heap flip_machine !! 1%nat = Some [py "0"; py "0"]
  ∧ ∃ w', run 3 flip_machine = Some (Ok tt, w')
          ∧ heap w' !! 1%nat = Some [py "1"; py "1"; py "_"].
Proof. split; [done|]. split; [done|]. eexists. by vm_compute. Qed.

(** * Further properties of the engine *)

(** ** What a step changes *)

Lemma moved_heap_length d t w :
  length (heap (moved d t w)) = length (heap w).
Proof. unfold moved. repeat case_match; fields; by rewrite ?length_insert. Qed.

Lemma written_frame w t i ins :
  only_tape_written w (written t i ins w).
Proof.
  unfold only_tape_written, written. fields. split.
  - rewrite length_insert, length_app. lia.
  - intros l Hl Hlt. rewrite list_lookup_insert_ne by done.
    by apply lookup_app_l.
Qed.

Lemma run_transition_frame w :
  only_tape_written w (snd (run_transition w))
  ∧ tape (self (snd (run_transition w))) = tape (self w)
  ∧ states (self (snd (run_transition w))) = states (self w)
  ∧ symbols (self (snd (run_transition w))) = symbols (self w)
  ∧ saved_state (self (snd (run_transition w))) = saved_state (self w).
Proof.
  destruct (run_transition_cases w) as [(t & i & symbol & row & ins & Hen)|(e & -> & _)].
  2:{ unfold only_tape_written. cbn [snd]. split_and!; done || by intros. }
  pose proof (written_frame w t i ins) as [Hlen Hfr].
  destruct (states (self w) !! Transition.next_state ins) as [x|] eqn:Hnext; last first.
  { rewrite (run_transition_unknown _ _ _ _ _ _ Hen Hnext). by split_and!. }
  destruct (decide (Transition.direction ins = Direction.STOP)) as [Hd|Hd].
  { rewrite (run_transition_halt _ _ _ _ _ _ _ Hen Hnext Hd). by split_and!. }
  rewrite (run_transition_move _ _ _ _ _ _ _ Hen Hnext Hd). cbn [snd].
  destruct (moved_fields (Transition.direction ins)
              (<[i:=Transition.write_symbol ins]> t)
              (advanced ins (written t i ins w))) as (_ & -> & -> & _ & -> & -> & _).
  split_and!; try done. split.
  - by rewrite moved_heap_length.
  - intros l Hl Hlt. rewrite moved_frame by done. by apply Hfr.
Qed.

(** X2: step count. A step that returns, also the halting one, adds
    exactly one to the step count; a step that raises leaves the step
    count as it was. *)
Theorem step_count_counts_steps (w : world) :
  step_count (self (snd (run_transition w)))
  = match fst (run_transition w) with
    | Ok _ => step_count (self w) + 1
    | Raise _ => step_count (self w)
    end.
Proof.
  destruct (run_transition w) as [[r|e] w'] eqn:Hrun; cbn [fst snd].
  - by destruct (run_transition_Ok _ _ _ Hrun) as [_ ->].
  - destruct (run_transition_cases w)
      as [(t & i & symbol & row & ins & Hen)|(e' & He & _)]; [|congruence].
    destruct (states (self w) !! Transition.next_state ins) as [x|] eqn:Hnext.
    + destruct (decide (Transition.direction ins = Direction.STOP)) as [Hd|Hd].
      * by rewrite (run_transition_halt _ _ _ _ _ _ _ Hen Hnext Hd) in Hrun.
      * by rewrite (run_transition_move _ _ _ _ _ _ _ Hen Hnext Hd) in Hrun.
    + rewrite (run_transition_unknown _ _ _ _ _ _ Hen Hnext) in Hrun.
      by injection Hrun as _ <-.
Qed.

(** X3: frame of a step. Whatever a step does, returning or raising, it
    keeps the table, the symbol set, the saved snapshot and the
    reference to the tape list, removes no list from the store and
    changes no list but the tape. *)
Theorem step_changes_only_the_tape (w : world) :
  states (self (snd (run_transition w))) = states (self w)
  ∧ symbols (self (snd (run_transition w))) = symbols (self w)
  ∧ saved_state (self (snd (run_transition w))) = saved_state (self w)
  ∧ tape (self (snd (run_transition w))) = tape (self w)
  ∧ (length (heap w) ≤ length (heap (snd (run_transition w))))%nat
  ∧ ∀ l, l ≠ tape (self w) → (l < length (heap w))%nat →
         heap (snd (run_transition w)) !! l = heap w !! l.
Proof.
  destruct (run_transition_frame w) as ([Hlen Hfr] & ? & ? & ? & ?).
  by split_and!.
Qed.

(** ** What the other operations change *)

Lemma store_extended_same w w' : heap w' = heap w → store_extended w w'.
Proof. intros E. exists []. by rewrite app_nil_r. Qed.

Lemma store_extended_refl w : store_extended w w.
Proof. by apply store_extended_same. Qed.

Lemma store_extended_lookup w w' l :
  store_extended w w' → (l < length (heap w))%nat → heap w' !! l = heap w !! l.
Proof. intros [extra ->] Hl. by apply lookup_app_l. Qed.

Lemma store_extended_length w w' :
  store_extended w w' → (length (heap w) ≤ length (heap w'))%nat.
Proof. intros [extra ->]. rewrite length_app. lia. Qed.

Lemma step_back_dangling w prev :
  last (history (self w)) = Some prev →
  heap w !! StateInfo.tape prev = None →
  step_back w
  = (Raise DanglingReference,
     World (heap w)
           (with_head_position (StateInfo.head_position prev)
              (with_history (removelast (history (self w))) (self w)))).
Proof.
  intros Hlast Hv. unfold step_back. open_world w. msimpl. rewrite Hlast. msimpl.
  unfold list_copy. msimpl.
  by erewrite bind_Raise by (apply list_get_dangling; fields; exact Hv).
Qed.

Lemma step_back_frame w :
  store_extended w (snd (step_back w))
  ∧ (tape (self (snd (step_back w))) = tape (self w)
     ∨ tape (self (snd (step_back w))) = length (heap w))
  ∧ states (self (snd (step_back w))) = states (self w)
  ∧ symbols (self (snd (step_back w))) = symbols (self w)
  ∧ saved_state (self (snd (step_back w))) = saved_state (self w).
Proof.
  destruct (last (history (self w))) as [prev|] eqn:Hlast; last first.
  { apply last_None in Hlast. rewrite (step_back_empty _ Hlast).
    split_and!; auto using store_extended_same. }
  destruct (heap w !! StateInfo.tape prev) as [v|] eqn:Hv.
  - rewrite (step_back_eq _ _ _ Hlast Hv). fields.
    split_and!; [by exists [v]|by right|done..].
  - rewrite (step_back_dangling _ _ Hlast Hv). fields.
    split_and!; auto using store_extended_same.
Qed.

Lemma load_tape_dangling w saved :
  saved_state (self w) = Some saved →
  heap w !! StateInfo.tape saved = None →
  load_tape w
  = (Raise DanglingReference,
     World (heap w) (with_head_position (StateInfo.head_position saved) (self w))).
Proof.
  intros Hs Hv. unfold load_tape. rewrite bind_attr, Hs. open_world w. msimpl.
  unfold list_copy. msimpl.
  by erewrite bind_Raise by (apply list_get_dangling; fields; exact Hv).
Qed.

Lemma load_tape_frame w :
  store_extended w (snd (load_tape w))
  ∧ (tape (self (snd (load_tape w))) = tape (self w)
     ∨ tape (self (snd (load_tape w))) = length (heap w))
  ∧ states (self (snd (load_tape w))) = states (self w)
  ∧ symbols (self (snd (load_tape w))) = symbols (self w)
  ∧ saved_state (self (snd (load_tape w))) = saved_state (self w)
  ∧ history (self (snd (load_tape w))) = history (self w).
Proof.
  destruct (saved_state (self w)) as [saved|] eqn:Hs; last first.
  { unfold load_tape. rewrite bind_attr, Hs.
    split_and!; auto using store_extended_same. }
  destruct (heap w !! StateInfo.tape saved) as [v|] eqn:Hv.
  - assert (load_tape w = (Ok tt,
       World (heap w ++ [v])
         (mk (StateInfo.current_state saved) (states (self w)) (length (heap w))
             (StateInfo.head_position saved) (StateInfo.step_count saved)
             (saved_state (self w)) (symbols (self w)) (history (self w))))) as ->.
    { pose proof (restore_eq w saved v Hv) as E.
      unfold load_tape. rewrite bind_attr, Hs. by rewrite Hs in E. }
    fields. split_and!; [by exists [v]|by right|done..].
  - rewrite (load_tape_dangling _ _ Hs Hv). fields.
    split_and!; auto using store_extended_same.
Qed.

Lemma get_state_info_frame w :
  store_extended w (snd (get_state_info w))
  ∧ self (snd (get_state_info w)) = self w.
Proof.
  destruct (heap w !! tape (self w)) as [t|] eqn:Ht.
  - rewrite (get_state_info_eq _ _ Ht). split; [by exists [t]|done].
  - unfold get_state_info, list_copy. msimpl.
    rewrite (bind_Raise _ _ _ _ _ (list_get_dangling _ _ Ht)).
    split; [by apply store_extended_same|done].
Qed.

Lemma save_tape_frame w :
  store_extended w (snd (save_tape w))
  ∧ tape (self (snd (save_tape w))) = tape (self w)
  ∧ states (self (snd (save_tape w))) = states (self w)
  ∧ symbols (self (snd (save_tape w))) = symbols (self w)
  ∧ history (self (snd (save_tape w))) = history (self w).
Proof.
  unfold save_tape. destruct (heap w !! tape (self w)) as [t|] eqn:Ht.
  - rewrite (bind_Ok _ _ _ _ _ (get_state_info_eq _ _ Ht)).
    unfold set_saved_state, update. fields. split_and!; [by exists [t]|done..].
  - unfold get_state_info, list_copy. msimpl.
    rewrite (bind_Raise _ _ _ _ _ (list_get_dangling _ _ Ht)).
    split_and!; auto using store_extended_same.
Qed.

Lemma set_tape_effect s w :
  store_extended w (snd (set_tape s w))
  ∧ (tape (self (snd (set_tape s w))) = tape (self w)
     ∨ tape (self (snd (set_tape s w))) = s
     ∨ tape (self (snd (set_tape s w))) = length (heap w))
  ∧ states (self (snd (set_tape s w))) = states (self w)
  ∧ symbols (self (snd (set_tape s w))) = symbols (self w)
  ∧ saved_state (self (snd (set_tape s w))) = saved_state (self w)
  ∧ history (self (snd (set_tape s w))) = history (self w)
  ∧ step_count (self (snd (set_tape s w))) = step_count (self w).
Proof.
  destruct (heap w !! s) as [v|] eqn:Hs.
  - rewrite (set_tape_live _ _ _ Hs). destruct v; fields.
    + split_and!; [by eexists|by right; right|done..].
    + split_and!; [by apply store_extended_same|by right; left|done..].
  - unfold set_tape. rewrite (bind_Raise _ _ _ _ _ (list_get_dangling _ _ Hs)).
    split_and!; auto using store_extended_same.
Qed.

Lemma new_transition_frame state symbol instruction w :
  heap (snd (new_transition state symbol instruction w)) = heap w
  ∧ tape (self (snd (new_transition state symbol instruction w))) = tape (self w)
  ∧ current_state (self (snd (new_transition state symbol instruction w)))
    = current_state (self w)
  ∧ head_position (self (snd (new_transition state symbol instruction w)))
    = head_position (self w)
  ∧ step_count (self (snd (new_transition state symbol instruction w)))
    = step_count (self w)
  ∧ saved_state (self (snd (new_transition state symbol instruction w)))
    = saved_state (self w)
  ∧ history (self (snd (new_transition state symbol instruction w)))
    = history (self w).
Proof.
  destruct (Transition.from_str instruction) as [tr|e] eqn:E.
  - by rewrite (new_transition_parsed _ _ _ _ _ E).
  - by rewrite (new_transition_failed _ _ _ _ _ E).
Qed.

(** ** Undoing several steps *)

Lemma undos_S k w : undos (S k) w = snd (step_back (undos k w)).
Proof. revert w. induction k as [|k IH]; intros w; [done|]. cbn [undos]. apply IH. Qed.

(** A step that returns has pushed the snapshot taken before it, and
    the copy of the tape that snapshot refers to is in the store. *)
Lemma run_transition_Ok_snapshot w r w' :
  run_transition w = (Ok r, w') →
  ∃ t, tape_contents w = Some t
       ∧ heap w' !! length (heap w) = Some t
       ∧ history (self w') = pushed (history (self w)) (snapshot w).
Proof.
  intros Hrun. destruct (run_transition_Ok _ _ _ Hrun) as [Hh _].
  destruct (run_transition_cases w) as [(t & i & symbol & row & ins & Hen)|(e & He & _)];
    [|congruence].
  pose proof Hen as (Ht & _). exists t. split; [done|]. split; [|done].
  assert (tape (self w) ≠ length (heap w)) as Hne
    by (apply lookup_lt_Some in Ht; lia).
  destruct (states (self w) !! Transition.next_state ins) as [x|] eqn:Hnext; last first.
  { by rewrite (run_transition_unknown _ _ _ _ _ _ Hen Hnext) in Hrun. }
  destruct (decide (Transition.direction ins = Direction.STOP)) as [Hd|Hd].
  - rewrite (run_transition_halt _ _ _ _ _ _ _ Hen Hnext Hd) in Hrun.
    injection Hrun as <- <-. by apply written_copy.
  - rewrite (run_transition_move _ _ _ _ _ _ _ Hen Hnext Hd) in Hrun.
    injection Hrun as <- <-. rewrite moved_frame by (fields; done).
    by apply written_copy.
Qed.

Lemma steps_then_undos n :
  ∀ w w', steps n w = Some w' →
  (n ≤ MAX_HISTORY_LEN)%nat →
  (length (history (self w)) ≤ MAX_HISTORY_LEN)%nat →
  current_state (self (undos n w')) = current_state (self w)
  ∧ head_position (self (undos n w')) = head_position (self w)
  ∧ step_count (self (undos n w')) = step_count (self w)
  ∧ tape_contents (undos n w') = tape_contents w
  ∧ history (self (undos n w'))
    = drop (length (history (self w)) + n - MAX_HISTORY_LEN) (history (self w))
  ∧ states (self (undos n w')) = states (self w)
  ∧ symbols (self (undos n w')) = symbols (self w)
  ∧ saved_state (self (undos n w')) = saved_state (self w)
  ∧ only_tape_written w (undos n w')
  ∧ ∀ j, (j < n)%nat → fst (step_back (undos j w')) = Ok 1.
Proof.
  induction n as [|n IH]; intros w w' Hsteps Hn Hlen.
  { injection Hsteps as <-. cbn [undos]. split_and!; try done.
    - replace (_ + 0 - _)%nat with 0%nat by lia. done.
    - intros; lia. }
  rewrite steps_unfold in Hsteps.
  destruct (run_transition w) as [[r|e] w1] eqn:Hrun; [|done].
  destruct (run_transition_Ok_snapshot _ _ _ Hrun) as (t & Ht & Hcopy & Hh1).
  destruct (run_transition_frame w) as ([Hlen1 Hfr1] & Htp1 & Hst1 & Hsy1 & Hsv1).
  rewrite Hrun in Hlen1, Hfr1, Htp1, Hst1, Hsy1, Hsv1. cbn [snd] in *.
  assert (length (history (self w1)) ≤ MAX_HISTORY_LEN)%nat as Hlen1'
    by (rewrite Hh1; by apply length_pushed).
  destruct (IH w1 w' Hsteps ltac:(lia) Hlen1')
    as (_ & _ & _ & _ & Hh & Hst & Hsy & Hsv & [Hlenu Hfru] & Hones).
  set (u1 := undos n w') in *.
  pose proof (lookup_lt_Some _ _ _ Ht) as Htlt. unfold tape_contents in Ht.
  pose proof (lookup_lt_Some _ _ _ Hcopy) as Hclt.
  assert (heap u1 !! length (heap w) = Some t) as Hcopy'.
  { rewrite Hfru; [done|lia|done]. }
  rewrite Hh1, pushed_snoc in Hh.
  rewrite Hh1, pushed_snoc, length_app, Nat.add_1_r in Hlen1'.
  set (X := if (MAX_HISTORY_LEN <=? length (history (self w)))%nat
            then drop 1 (history (self w)) else history (self w)) in *.
  rewrite length_app, Nat.add_1_r in Hh.
  rewrite drop_app_le in Hh by lia.
  assert (last (history (self u1)) = Some (snapshot w)) as Hlast
    by (rewrite Hh; apply last_snoc).
  destruct (step_back_snapshot w u1 t Ht Hlast Hcopy')
    as (u & Eu & Hcs & Hhd & Htc & Hsc & Hst' & Hsy' & Hsv' & Hh').
  destruct (step_back_frame u1) as (Hext & _).
  rewrite undos_S. fold u1. rewrite Eu in Hext |- *. cbn [snd] in *.
  split_and!; try done; try congruence.
  - rewrite Hh', Hh, removelast_last. subst X.
    destruct (Nat.leb_spec MAX_HISTORY_LEN (length (history (self w)))).
    + rewrite drop_drop. f_equal. rewrite length_drop. lia.
    + f_equal. lia.
  - split.
    + pose proof (store_extended_length _ _ Hext). lia.
    + intros l Hl Hlt. rewrite (store_extended_lookup _ _ _ Hext) by lia.
      rewrite Hfru by (lia || congruence). by apply Hfr1.
  - intros j Hj. destruct (decide (j = n)) as [->|Hne].
    + fold u1. by rewrite Eu.
    + apply Hones. lia.
Qed.

(** X4: several steps, then as many undos. After [n] steps that return,
    [n] at most [MAX_HISTORY_LEN], on a machine whose history is within
    the cap, [n] calls of [step_back] all return 1 and lead back to the
    current state, head position, tape contents and step count from
    before the first step; table, symbol set and saved snapshot are
    untouched; the history is the one from before the first step, less
    the entries the cap evicted, so exactly that one if it had room for
    [n] more. *)
Theorem undo_reverts_steps (n : nat) (w w' : world) :
  steps n w = Some w' →
  (n ≤ MAX_HISTORY_LEN)%nat →
  (length (history (self w)) ≤ MAX_HISTORY_LEN)%nat →
  (∀ j, (j < n)%nat → fst (step_back (undos j w')) = Ok 1)
  ∧ current_state (self (undos n w')) = current_state (self w)
  ∧ head_position (self (undos n w')) = head_position (self w)
  ∧ step_count (self (undos n w')) = step_count (self w)
  ∧ tape_contents (undos n w') = tape_contents w
  ∧ states (self (undos n w')) = states (self w)
  ∧ symbols (self (undos n w')) = symbols (self w)
  ∧ saved_state (self (undos n w')) = saved_state (self w)
  ∧ history (self (undos n w'))
    = drop (length (history (self w)) + n - MAX_HISTORY_LEN) (history (self w))
  ∧ ((length (history (self w)) + n ≤ MAX_HISTORY_LEN)%nat →
     history (self (undos n w')) = history (self w)).
Proof.
  intros Hsteps Hn Hlen.
  destruct (steps_then_undos n w w' Hsteps Hn Hlen)
    as (? & ? & ? & ? & Hh & ? & ? & ? & _ & ?).
  split_and!; try done.
  intros Hroom. rewrite Hh.
  replace (_ + n - _)%nat with 0%nat by lia. done.
Qed.

Lemma undo_reverts_steps_witness :
  ∃ w', steps 3 right_machine = Some w'
    ∧ (∀ j, (j < 3)%nat → fst (step_back (undos j w')) = Ok 1)
    ∧ current_state (self (undos 3 w')) = current_state (self right_machine)
    ∧ head_position (self (undos 3 w')) = head_position (self right_machine)
    ∧ step_count (self (undos 3 w')) = step_count (self right_machine)
    ∧ tape_contents (undos 3 w') = tape_contents right_machine
    ∧ states (self (undos 3 w')) = states (self right_machine)
    ∧ symbols (self (undos 3 w')) = symbols (self right_machine)
    ∧ saved_state (self (undos 3 w')) = saved_state (self right_machine)
    ∧ history (self (undos 3 w'))
      = drop (length (history (self right_machine)) + 3 - MAX_HISTORY_LEN)
          (history (self right_machine))
    ∧ ((length (history (self right_machine)) + 3 ≤ MAX_HISTORY_LEN)%nat →
       history (self (undos 3 w')) = history (self right_machine)).
Proof.
  destruct (steps 3 right_machine) as [w'|] eqn:E.
  - exists w'. split; [reflexivity|].
    apply (undo_reverts_steps 3 right_machine w' E).
    + unfold MAX_HISTORY_LEN. lia.
    + vm_compute. lia.
  - vm_compute in E. discriminate E.
Defined.

(** ** Saving and restoring the tape *)

(** A call other than [save_tape], and other than [set_tape] with the
    saved snapshot's own list, keeps the saved snapshot, leaves its list
    as it is and does not make it the tape. *)
Lemma saved_snapshot_kept snap t c w :
  saved_state (self w) = Some snap →
  heap w !! StateInfo.tape snap = Some t →
  tape (self w) ≠ StateInfo.tape snap →
  c ≠ SaveTape → c ≠ SetTape (StateInfo.tape snap) →
  saved_state (self (perform c w)) = Some snap
  ∧ heap (perform c w) !! StateInfo.tape snap = Some t
  ∧ tape (self (perform c w)) ≠ StateInfo.tape snap.
Proof.
  intros Hsv Ht Hne Hc1 Hc2. pose proof (lookup_lt_Some _ _ _ Ht) as Hlt.
  destruct c as [v|st sy ins|s| | | | | ]; cbn [perform]; try done.
  - fields. split_and!; [done|by apply lookup_app_l_Some|done].
  - destruct (new_transition_frame st sy ins w) as (-> & -> & _ & _ & _ & -> & _).
    done.
  - destruct (set_tape_effect s w) as (Hext & Htp & _ & _ & -> & _).
    rewrite (store_extended_lookup _ _ _ Hext) by done.
    split_and!; [done..|]. destruct Htp as [-> | [-> | ->]]; [done|congruence|lia].
  - destruct (run_transition_frame w) as ([_ Hfr] & -> & _ & _ & ->).
    rewrite Hfr by done. done.
  - destruct (get_state_info_frame w) as (Hext & ->).
    by rewrite (store_extended_lookup _ _ _ Hext).
  - destruct (load_tape_frame w) as (Hext & Htp & _ & _ & -> & _).
    rewrite (store_extended_lookup _ _ _ Hext) by done.
    split_and!; [done..|]. destruct Htp as [-> | ->]; [done|lia].
  - destruct (step_back_frame w) as (Hext & Htp & _ & _ & ->).
    rewrite (store_extended_lookup _ _ _ Hext) by done.
    split_and!; [done..|]. destruct Htp as [-> | ->]; [done|lia].
Qed.

Lemma saved_snapshot_kept_all snap t cs w :
  saved_state (self w) = Some snap →
  heap w !! StateInfo.tape snap = Some t →
  tape (self w) ≠ StateInfo.tape snap →
  Forall (λ c, c ≠ SaveTape ∧ c ≠ SetTape (StateInfo.tape snap)) cs →
  saved_state (self (perform_all cs w)) = Some snap
  ∧ heap (perform_all cs w) !! StateInfo.tape snap = Some t
  ∧ tape (self (perform_all cs w)) ≠ StateInfo.tape snap.
Proof.
  intros Hsv Ht Hne Hcs. revert w Hsv Ht Hne.
  induction Hcs as [|c cs [Hc1 Hc2] _ IH]; intros w Hsv Ht Hne; [done|].
  cbn [perform_all foldl].
  destruct (saved_snapshot_kept snap t c w Hsv Ht Hne Hc1 Hc2) as (? & ? & ?).
  by apply IH.
Qed.

(** X5: save, anything, restore. [save_tape], then any calls other than
    another [save_tape] (and other than handing the saved snapshot's
    own list to [set_tape]), then [load_tape]: [load_tape] returns and
    the current state, head position, tape contents and step count are
    those at the time of [save_tape]; it leaves the history alone. *)
Theorem save_then_load_restores (w : world) (t : list str) (cs : list call) :
  tape_contents w = Some t →
  Forall (λ c, c ≠ SaveTape ∧ c ≠ SetTape (length (heap w))) cs →
  ∃ w', load_tape (perform_all cs (snd (save_tape w))) = (Ok tt, w')
    ∧ current_state (self w') = current_state (self w)
    ∧ head_position (self w') = head_position (self w)
    ∧ step_count (self w') = step_count (self w)
    ∧ tape_contents w' = Some t
    ∧ history (self w') = history (self (perform_all cs (snd (save_tape w)))).
Proof.
  intros Ht Hcs. unfold tape_contents in Ht.
  pose proof (lookup_lt_Some _ _ _ Ht) as Hlt.
  assert (save_tape w
          = (Ok tt, World (heap w ++ [t]) (with_saved_state (Some (snapshot w)) (self w))))
    as Hsave.
  { unfold save_tape. by rewrite (bind_Ok _ _ _ _ _ (get_state_info_eq _ _ Ht)). }
  rewrite Hsave. cbn [snd].
  set (w1 := World _ _).
  destruct (saved_snapshot_kept_all (snapshot w) t cs w1) as (Hsv & Hcopy & _).
  - done.
  - subst w1. unfold snapshot. fields. by apply list_lookup_middle.
  - subst w1. unfold snapshot. fields. lia.
  - done.
  - set (w2 := perform_all cs w1) in *.
    pose proof (restore_eq w2 (snapshot w) t Hcopy) as E.
    eexists. split.
    { unfold load_tape. rewrite bind_attr, Hsv. exact E. }
    unfold tape_contents. fields. split_and!; try done.
    by apply list_lookup_middle.
Qed.

Lemma save_then_load_restores_witness :
  ∃ w', load_tape (perform_all [RunTransition; RunTransition; CallerList [py "x"];
                                SetTape 4; RunTransition; StepBack]
                     (snd (save_tape right_machine))) = (Ok tt, w')
    ∧ current_state (self w') = current_state (self right_machine)
    ∧ head_position (self w') = head_position (self right_machine)
    ∧ step_count (self w') = step_count (self right_machine)
    ∧ tape_contents w' = Some [py "_"]
    ∧ history (self w')
      = history (self (perform_all [RunTransition; RunTransition; CallerList [py "x"];
                                    SetTape 4; RunTransition; StepBack]
                         (snd (save_tape right_machine)))).
Proof.
  apply (save_then_load_restores right_machine [py "_"]).
  - vm_compute. reflexivity.
  - repeat constructor; discriminate.
Defined.

(** ** The instruction format *)

Lemma of_value_inv v d : Direction.of_value v = Ok d → v = Direction.value d.
Proof.
  unfold Direction.of_value. repeat case_decide; intros [= <-]; done.
Qed.

Lemma from_str_Ok_iff s tr :
  Transition.from_str s = Ok tr
  ↔ split s = [Transition.write_symbol tr; Transition.next_state tr;
               Direction.value (Transition.direction tr)].
Proof.
  unfold Transition.from_str. rewrite split_strip. split.
  - destruct (split s) as [|a [|b [|c [|? ?]]]]; try done.
    case_bool_decide; [|done].
    destruct (Direction.of_value c) as [d|e] eqn:Ed; [|done].
    intros [= <-]. cbn. by rewrite (of_value_inv _ _ Ed).
  - intros ->. rewrite bool_decide_eq_true_2 by (apply elem_of_ALL; eauto).
    rewrite of_value_value. by destruct tr.
Qed.

Lemma from_str_words s tr :
  Transition.from_str s = Ok tr →
  word (Transition.write_symbol tr) ∧ word (Transition.next_state tr).
Proof.
  intros Hs%from_str_Ok_iff.
  split; apply (split_from_words [] s); try constructor;
    fold (split s); rewrite Hs; repeat constructor.
Qed.

(** X6: what [from_str] accepts. The result depends only on the words
    of the string (leading, trailing and repeated whitespace do not
    matter): it is a transition exactly when the words are three, the
    write symbol, the next state and a direction token, in this order;
    [ValueError] exactly when the words are not three; and
    [InvalidDirectionError] exactly when they are three and the third
    is no direction token. *)
Theorem from_str_by_words (s : str) :
  (∀ tr, Transition.from_str s = Ok tr
         ↔ split s = [Transition.write_symbol tr; Transition.next_state tr;
                      Direction.value (Transition.direction tr)])
  ∧ (Transition.from_str s = Raise ValueError ↔ length (split s) ≠ 3%nat)
  ∧ (Transition.from_str s = Raise InvalidDirectionError
     ↔ ∃ a b c, split s = [a; b; c] ∧ c ∉ Direction.ALL).
Proof.
  split; [intros tr; apply from_str_Ok_iff|].
  unfold Transition.from_str. rewrite split_strip.
  destruct (split s) as [|a [|b [|c [|x l]]]]; cbn [length].
  1-3,5: split; [split; [intros _; lia|done]
                |split; [done|intros (? & ? & ? & ? & _); done]].
  destruct (decide (c ∈ Direction.ALL)) as [Hc|Hc].
  - rewrite bool_decide_eq_true_2 by done.
    apply elem_of_ALL in Hc as Hd. destruct Hd as [d ->].
    rewrite of_value_value.
    split; [split; [done|intros H; by destruct H]|split; [done|]].
    intros (? & ? & ? & [= <- <- <-] & Hn). done.
  - rewrite bool_decide_eq_false_2 by done.
    split; [split; [done|intros H; by destruct H]
           |split; [intros _; by exists a, b, c|done]].
Qed.

(** X7: which transitions survive [to_str]. Parsing what [to_str] wrote
    gives the transition back exactly when its write symbol and its
    next state are non-empty and free of whitespace; every transition
    [from_str] returns is of that kind. *)
Theorem to_str_round_trip_iff (tr : Transition.t) :
  (Transition.from_str (Transition.to_str tr) = Ok tr
   ↔ word (Transition.write_symbol tr) ∧ word (Transition.next_state tr))
  ∧ ∀ s, Transition.from_str s = Ok tr →
         Transition.from_str (Transition.to_str tr) = Ok tr.
Proof.
  split.
  - split; [|intros []; by apply from_str_to_str].
    intros Hs%from_str_Ok_iff.
    split; apply (split_from_words [] (Transition.to_str tr)); try constructor;
      fold (split (Transition.to_str tr)); rewrite Hs; repeat constructor.
  - intros s [??]%from_str_words. by apply from_str_to_str.
Qed.

(** A transition that writes a blank space does not survive. *)
Example to_str_loses_space :
  Transition.from_str (Transition.to_str (Transition.mk (py "q0") (py " ") Direction.STAY))
  = Raise ValueError.
Proof. by vm_compute. Qed.

(** X8: direction tokens. [Direction(v)] is the member [d] exactly when
    [v] is the token of [d]; different members have different tokens;
    and the tokens are the elements of [ALL]. *)
Theorem direction_tokens (v : str) (d d' : Direction.t) :
  (Direction.of_value v = Ok d ↔ v = Direction.value d)
  ∧ (Direction.value d = Direction.value d' → d = d')
  ∧ (v ∈ Direction.ALL ↔ ∃ d0, Direction.of_value v = Ok d0).
Proof.
  split_and!.
  - split; [apply of_value_inv|intros ->; apply of_value_value].
  - by destruct d, d'.
  - rewrite elem_of_ALL. split; intros [d0 H]; exists d0.
    + subst v. apply of_value_value.
    + by apply of_value_inv.
Qed.

(** ** Editing the table *)

Lemma lookup_transition_insert m m' state symbol tr st sy :
  states m' = <[state := <[symbol := tr]> (default ∅ (states m !! state))]> (states m) →
  lookup_transition m' st sy
  = if decide ((st, sy) = (state, symbol)) then Some tr
    else lookup_transition m st sy.
Proof.
  unfold lookup_transition. intros ->.
  destruct (decide (st = state)) as [->|Hst].
  - rewrite lookup_insert_eq. cbn.
    destruct (decide (sy = symbol)) as [->|Hsy].
    + rewrite lookup_insert_eq. by rewrite decide_True.
    + rewrite lookup_insert_ne by done. rewrite decide_False by congruence.
      by destruct (states m !! state).
  - rewrite lookup_insert_ne by done. by rewrite decide_False by congruence.
Qed.

(** X9: adding an entry. An instruction of three words, the third the
    token of direction [d], makes [new_transition] return: the entry
    for the given state and symbol is then the transition the words
    describe, replacing what was there; every other entry is as
    before; no state loses its row; the symbol has joined the symbol
    set; and nothing else of the machine or the store has changed. *)
Theorem new_transition_sets_entry (w : world) (state symbol ins a b : str)
    (d : Direction.t) :
  split ins = [a; b; Direction.value d] →
  ∃ w', new_transition state symbol ins w = (Ok tt, w')
    ∧ lookup_transition (self w') state symbol = Some (Transition.mk b a d)
    ∧ (∀ st sy, (st, sy) ≠ (state, symbol) →
         lookup_transition (self w') st sy = lookup_transition (self w) st sy)
    ∧ (∀ st, is_Some (states (self w) !! st) → is_Some (states (self w') !! st))
    ∧ symbols (self w') = {[ symbol ]} ∪ symbols (self w)
    ∧ heap w' = heap w
    ∧ current_state (self w') = current_state (self w)
    ∧ tape (self w') = tape (self w)
    ∧ head_position (self w') = head_position (self w)
    ∧ step_count (self w') = step_count (self w)
    ∧ saved_state (self w') = saved_state (self w)
    ∧ history (self w') = history (self w).
Proof.
  intros Hs.
  assert (Transition.from_str ins = Ok (Transition.mk b a d)) as E
    by by apply from_str_Ok_iff.
  eexists. split; [by apply new_transition_parsed|]. fields.
  split_and!; try done.
  - rewrite (lookup_transition_insert (self w) _ state symbol (Transition.mk b a d))
      by done.
    by rewrite decide_True.
  - intros st sy Hne.
    rewrite (lookup_transition_insert (self w) _ state symbol (Transition.mk b a d))
      by done.
    by rewrite decide_False.
  - intros st. apply table_le_insert.
Qed.

Lemma new_transition_sets_entry_witness :
  ∃ w', new_transition (py "q1") (py "a") (py " b  q0 <") idle_machine = (Ok tt, w')
    ∧ lookup_transition (self w') (py "q1") (py "a")
      = Some (Transition.mk (py "q0") (py "b") Direction.LEFT)
    ∧ (∀ st sy, (st, sy) ≠ (py "q1", py "a") →
         lookup_transition (self w') st sy = lookup_transition (self idle_machine) st sy)
    ∧ (∀ st, is_Some (states (self idle_machine) !! st) →
             is_Some (states (self w') !! st))
    ∧ symbols (self w') = {[ py "a" ]} ∪ symbols (self idle_machine)
    ∧ heap w' = heap idle_machine
    ∧ current_state (self w') = current_state (self idle_machine)
    ∧ tape (self w') = tape (self idle_machine)
    ∧ head_position (self w') = head_position (self idle_machine)
    ∧ step_count (self w') = step_count (self idle_machine)
    ∧ saved_state (self w') = saved_state (self idle_machine)
    ∧ history (self w') = history (self idle_machine).
Proof.
  apply (new_transition_sets_entry idle_machine (py "q1") (py "a") (py " b  q0 <")
           (py "b") (py "q0") Direction.LEFT).
  vm_compute. reflexivity.
Defined.

(** X10: rejecting an entry. An instruction that is not three words with
    a direction token last makes [new_transition] raise
    [InvalidTransitionError] for the given state and symbol, whatever
    [from_str] raised, and leaves the machine and the store exactly as
    they were. *)
Theorem new_transition_rejects (w : world) (state symbol ins : str) :
  (∀ a b d, split ins ≠ [a; b; Direction.value d]) →
  new_transition state symbol ins w
  = (Raise (InvalidTransitionError state symbol), w).
Proof.
  intros Hs. destruct (Transition.from_str ins) as [tr|e] eqn:E.
  - apply from_str_Ok_iff in E. by destruct (Hs _ _ _ E).
  - by apply (new_transition_failed _ _ _ e).
Qed.

Lemma new_transition_rejects_witness :
  new_transition (py "q0") (py "0") (py "1 q0 >>") flip_machine
  = (Raise (InvalidTransitionError (py "q0") (py "0")), flip_machine).
Proof.
  apply new_transition_rejects. intros a b d. vm_compute.
  intros [= _ _ Hd]. by destruct d.
Defined.

(** ** The symbols in order *)

Lemma symbol_key_inl x k :
  symbol_key x = inl k ↔ (x = py "_" ∧ k = -1) ∨ (∃ c, x = [c] ∧ x ≠ py "_" ∧ k = Z.of_N c).
Proof.
  unfold symbol_key, ord. case_decide as Hx.
  - split.
    + destruct x as [|c [|??]]; intros [= <-]. right. eauto.
    + intros [[-> _]|(c & -> & _ & ->)]; done.
  - subst x. split.
    + intros [= <-]. by left.
    + intros [[_ ->]|(c & _ & ? & _)]; done.
Qed.

Lemma key_of_inj x y k k' :
  symbol_key x = inl k → symbol_key y = inl k' → key_of x = key_of y → x = y.
Proof.
  unfold key_of. intros Hx Hy. rewrite Hx, Hy. intros <-.
  apply symbol_key_inl in Hx, Hy.
  destruct Hx as [[-> ->]|(c & -> & _ & ->)], Hy as [[-> E]|(c' & -> & _ & E)];
    try done; try lia.
  f_equal. lia.
Qed.

Lemma has_keys_Forall xs :
  forallb has_key xs = true ↔ Forall (λ x, ∃ k, symbol_key x = inl k) xs.
Proof.
  rewrite forallb_forall, Forall_forall. unfold has_key.
  split; intros H x Hx.
  - apply list_elem_of_In, H in Hx. destruct (symbol_key x); [eauto|done].
  - apply list_elem_of_In, H in Hx as [k ->]. done.
Qed.

(** X11: the symbols in order. When [get_symbols] returns, its list holds
    exactly the symbols of the set, each once, in ascending order of
    the key, no two with the same key; each is the blank or a
    one-character string; the blank, when in the set, comes first; and
    any other ascending arrangement of the same symbols is the same
    list, so the order in which the set is iterated does not matter. *)
Theorem get_symbols_sorted (m : TuringMachine.t) (l : list str) :
  get_symbols m = inl l →
  (∀ x, x ∈ l ↔ x ∈ symbols m)
  ∧ NoDup l
  ∧ StronglySorted key_le l
  ∧ (∀ x y, x ∈ l → y ∈ l → key_of x = key_of y → x = y)
  ∧ (∀ x, x ∈ l → x = py "_" ∨ (length x = 1%nat ∧ 0 ≤ key_of x))
  ∧ (py "_" ∈ symbols m → head l = Some (py "_"))
  ∧ ∀ l', l' ≡ₚ l → Sorted key_le l' → l' = l.
Proof.
  unfold get_symbols.
  destruct (forallb has_key (elements (symbols m))) eqn:Hkeys; [|done].
  apply has_keys_Forall in Hkeys. intros [= <-].
  set (xs := elements (symbols m)) in *.
  pose proof (merge_sort_Permutation key_le xs) as Hperm.
  set (l := merge_sort key_le xs) in *.
  assert (StronglySorted key_le l) as Hsorted
    by (apply StronglySorted_merge_sort; apply _).
  assert (∀ x, x ∈ l → ∃ k, symbol_key x = inl k) as Hl.
  { intros x Hx. rewrite Forall_forall in Hkeys. apply Hkeys. by rewrite <- Hperm. }
  assert (∀ x y, x ∈ l → y ∈ l → key_of x = key_of y → x = y) as Hinj.
  { intros x y [k Hx]%Hl [k' Hy]%Hl. by apply (key_of_inj x y k k'). }
  assert (∀ x, x ∈ l → x = py "_" ∨ (length x = 1%nat ∧ 0 ≤ key_of x)) as Hshape.
  { intros x [k Hx]%Hl. unfold key_of. rewrite Hx.
    apply symbol_key_inl in Hx as [[-> _]|(c & -> & _ & ->)]; [by left|right].
    split; [done|lia]. }
  split_and!; try done.
  - intros x. rewrite Hperm. apply elem_of_elements.
  - rewrite Hperm. apply NoDup_elements.
  - intros Hblank. assert (py "_" ∈ l) as Hin
      by (rewrite Hperm; by apply elem_of_elements).
    destruct Hsorted as [|x l0 Hs Hall]; [by apply elem_of_nil in Hin|].
    cbn [head]. f_equal.
    apply elem_of_cons in Hin as [Hin|Hin]; [done|].
    rewrite Forall_forall in Hall. specialize (Hall _ Hin). unfold key_le in Hall.
    destruct (Hshape x) as [?|[_ Hx]]; [by left|done|].
    change (key_of (py "_")) with (-1) in Hall. lia.
  - intros l' Hl' Hs'. apply (Sorted_unique_strong key_le); try done;
      [|by apply StronglySorted_Sorted].
    intros x y Hx Hy Hxy Hyx. apply Hinj; [by rewrite <- Hl'|done|].
    unfold key_le in *. lia.
Qed.

Lemma get_symbols_raises_iff (m : TuringMachine.t) :
  get_symbols m = inr TypeError
  ↔ ∃ x, x ∈ symbols m ∧ x ≠ py "_" ∧ length x ≠ 1%nat.
Proof.
  unfold get_symbols.
  destruct (forallb has_key (elements (symbols m))) eqn:Hkeys.
  - apply has_keys_Forall in Hkeys.
    split; [done|]. intros (x & Hx & Hne & Hlen).
    rewrite Forall_forall in Hkeys.
    destruct (Hkeys x) as [k Hk]; [by apply elem_of_elements|].
    apply symbol_key_inl in Hk as [[-> _]|(c & -> & _)]; done.
  - split; [intros _|done].
    assert (¬ Forall (λ x, ∃ k, symbol_key x = inl k) (elements (symbols m)))
      as Hn by (rewrite <- has_keys_Forall; congruence).
    assert (∃ x, x ∈ elements (symbols m) ∧ ¬ ∃ k, symbol_key x = inl k)
      as (x & Hx & Hk).
    { clear Hkeys. induction (elements (symbols m)) as [|y ys IH].
      - destruct Hn. constructor.
      - destruct (symbol_key y) as [k|e] eqn:Ey.
        + destruct IH as (x & Hx & Hk).
          * intros Hall. apply Hn. constructor; eauto.
          * exists x. split; [by right|done].
        + exists y. split; [by left|]. intros [k Hk]. congruence. }
    exists x.
    split; [by apply elem_of_elements|].
    assert (x ≠ py "_") as Hne.
    { intros ->. apply Hk. by exists (-1). }
    split; [done|]. intros Hlen. apply Hk.
    destruct x as [|c [|??]]; try done. exists (Z.of_N c).
    apply symbol_key_inl. right. by exists c.
Qed.

(** X12: when [get_symbols] raises. It raises [TypeError] exactly when
    the symbol set holds a symbol other than ['_'] that is not one
    character long. *)
Theorem get_symbols_TypeError (m : TuringMachine.t) :
  get_symbols m = inr TypeError
  ↔ ∃ x, x ∈ symbols m ∧ x ≠ py "_" ∧ length x ≠ 1%nat.
Proof.
  apply get_symbols_raises_iff.
Qed.

(** ** Loading, entry by entry *)

Lemma bind_ext {A B} (c : M A) (k k' : A → M B) w :
  (∀ a w, k a w = k' a w) → bind c k w = bind c k' w.
Proof. intros Hk. unfold bind. destruct (c w) as [[a|e] w1]; [apply Hk|done]. Qed.

Lemma for_each_app {A} (l1 l2 : list A) (body : A → M unit) w :
  for_each (l1 ++ l2) body w = (for_each l1 body;;; for_each l2 body) w.
Proof.
  revert w. induction l1 as [|x l1 IH]; intros w; [done|].
  cbn [app for_each]. rewrite bind_bind. apply bind_ext. intros _ w1. apply IH.
Qed.

Lemma for_each_map {A B} (f : A → B) (l : list A) (body : B → M unit) w :
  for_each (map f l) body w = for_each l (λ x, body (f x)) w.
Proof.
  revert w. induction l as [|x l IH]; intros w; [done|].
  cbn [map for_each]. apply bind_ext. intros _ w1. apply IH.
Qed.

Lemma for_each_ext {A} (l : list A) (body body' : A → M unit) w :
  (∀ x w, body x w = body' x w) → for_each l body w = for_each l body' w.
Proof.
  intros Hb. revert w. induction l as [|x l IH]; intros w; [done|].
  cbn [for_each]. unfold bind. rewrite Hb.
  destruct (body' x w) as [[[]|e] w1]; [apply IH|done].
Qed.

Lemma load_row_flat st (row : list (str * str)) w :
  for_each (map (λ '(symbol, transition), (st, symbol, transition)) row)
    (λ '(state_name, symbol, transition),
       new_transition state_name symbol transition) w
  = for_each row (λ '(symbol, transition), new_transition st symbol transition) w.
Proof.
  revert w. induction row as [|[sy ins] row IH]; intros w; [done|].
  cbn [map for_each]. apply bind_ext. intros _ w1. apply IH.
Qed.

(** The two nested loops of [load_from_file] are one loop over the
    entries. *)
Lemma load_loops_flat (table : list (str * list (str * str))) w :
  for_each table (λ '(state_name, state),
    for_each state (λ '(symbol, transition),
      new_transition state_name symbol transition)) w
  = for_each (doc_entries table)
      (λ '(state_name, symbol, transition),
         new_transition state_name symbol transition) w.
Proof.
  revert w. induction table as [|[st row] table IH]; intros w; [done|].
  cbn [for_each doc_entries flat_map]. rewrite for_each_app.
  unfold bind. rewrite load_row_flat.
  destruct (for_each row _ w) as [[[]|e] w1]; [apply IH|done].
Qed.

Lemma is_Some_insert_table (m : gmap str (gmap str Transition.t)) k v st :
  is_Some (<[k := v]> m !! st) ↔ st = k ∨ is_Some (m !! st).
Proof.
  destruct (decide (k = st)) as [->|Hne].
  - rewrite lookup_insert_eq. split; eauto.
  - rewrite lookup_insert_ne by done. split; [eauto|]. intros [->|?]; done.
Qed.

(** A loop of [new_transition]s over entries that give each pair of
    keys one instruction and all parse. *)
Lemma entries_loop (es : list (str * str * str)) :
  ∀ w, one_instruction_per_key es →
  (∀ e, e ∈ es → ∃ tr, Transition.from_str e.2 = Ok tr) →
  ∃ w', for_each es (λ '(state_name, symbol, transition),
                       new_transition state_name symbol transition) w = (Ok tt, w')
    ∧ heap w' = heap w
    ∧ current_state (self w') = current_state (self w)
    ∧ tape (self w') = tape (self w)
    ∧ head_position (self w') = head_position (self w)
    ∧ step_count (self w') = step_count (self w)
    ∧ saved_state (self w') = saved_state (self w)
    ∧ history (self w') = history (self w)
    ∧ (∀ st sy tr, lookup_transition (self w') st sy = Some tr
         ↔ (lookup_transition (self w) st sy = Some tr ∧ (st, sy) ∉ entry_key <$> es)
           ∨ ∃ ins, (st, sy, ins) ∈ es ∧ Transition.from_str ins = Ok tr)
    ∧ (∀ st, is_Some (states (self w') !! st)
         ↔ is_Some (states (self w) !! st) ∨ ∃ sy ins, (st, sy, ins) ∈ es)
    ∧ (∀ x, x ∈ symbols (self w')
         ↔ x ∈ symbols (self w) ∨ ∃ st ins, (st, x, ins) ∈ es).
Proof.
  induction es as [|[[st0 sy0] ins0] es IH]; intros w Hnd Hparse.
  { exists w. split_and!; try done.
    - intros st sy tr. split; [intros ?; left; split; [done|]|].
      + by intros ?%elem_of_nil.
      + intros [[? _]|(? & ?%elem_of_nil & _)]; done.
    - intros st. split; [by left|]. intros [?|(? & ? & ?%elem_of_nil)]; done.
    - intros x. split; [by left|]. intros [?|(? & ? & ?%elem_of_nil)]; done. }
  destruct (Hparse (st0, sy0, ins0)) as [tr0 E0]; [by left|]. cbn in E0.
  cbn [for_each].
  rewrite (bind_Ok _ _ _ _ _ (new_transition_parsed st0 sy0 ins0 tr0 w E0)).
  set (w1 := World _ _).
  destruct (IH w1) as (w' & E & Hheap & ? & ? & ? & ? & ? & ? & Hlk & Hst & Hsy).
  { intros st sy i1 i2 H1 H2. apply (Hnd st sy); by right. }
  { intros e He. apply Hparse. by right. }
  assert (∀ st sy, lookup_transition (self w1) st sy
                   = if decide ((st, sy) = (st0, sy0)) then Some tr0
                     else lookup_transition (self w) st sy) as Hlk1.
  { intros st sy. by apply lookup_transition_insert. }
  exists w'. split_and!; try done.
  - intros st sy tr. rewrite Hlk, Hlk1, fmap_cons, not_elem_of_cons. cbn.
    split.
    + intros [[Hw1 Hnin]|(ins & Hin & Hins)].
      * case_decide as Hk.
        -- injection Hk as -> ->. injection Hw1 as <-.
           right. exists ins0. split; [by left|done].
        -- left. split_and!; done || congruence.
      * right. exists ins. split; [by right|done].
    + intros [(Hw & Hne & Hnin)|(ins & Hin & Hins)].
      * left. split; [|done]. by rewrite decide_False by congruence.
      * apply elem_of_cons in Hin as [[= -> -> ->]|Hin]; [|by right; eauto].
        destruct (decide ((st0, sy0) ∈ entry_key <$> es)) as [Hk|Hk].
        -- apply list_elem_of_fmap in Hk as ([[st' sy'] ins'] & [= <- <-] & Hin').
           assert (ins' = ins0) as -> by (apply (Hnd st0 sy0); [by right|by left]).
           right. by exists ins0.
        -- left. rewrite decide_True by done. split; [congruence|done].
  - intros st. rewrite Hst. subst w1. fields. rewrite is_Some_insert_table.
    split.
    + intros [[->|?]|(sy & ins & Hin)]; [right|by left|right].
      * exists sy0, ins0. by left.
      * exists sy, ins. by right.
    + intros [?|(sy & ins & Hin)]; [by left; right|].
      apply elem_of_cons in Hin as [[= -> -> ->]|Hin]; [by left; left|].
      right. eauto.
  - intros x. rewrite Hsy. subst w1. fields.
    rewrite elem_of_union, elem_of_singleton. split.
    + intros [[->|?]|(st & ins & Hin)]; [right|by left|right].
      * exists st0, ins0. by left.
      * exists st, ins. by right.
    + intros [?|(st & ins & Hin)]; [by left; right|].
      apply elem_of_cons in Hin as [[= -> -> ->]|Hin]; [by left; left|].
      right. eauto.
Qed.

Lemma elem_of_doc_entries (table : list (str * list (str * str))) st sy ins :
  (st, sy, ins) ∈ doc_entries table ↔ ∃ row, (st, row) ∈ table ∧ (sy, ins) ∈ row.
Proof.
  unfold doc_entries. rewrite list_elem_of_In, in_flat_map. split.
  - intros ([st' row] & Hrow%list_elem_of_In & Hin%list_elem_of_In).
    apply list_elem_of_fmap in Hin as ([sy' ins'] & [= -> -> ->] & Hin). eauto.
  - intros (row & Hrow & Hin). exists (st, row).
    split; [by apply list_elem_of_In|]. apply list_elem_of_In.
    apply list_elem_of_fmap. by exists (sy, ins).
Qed.

Lemma lookup_transition_init h st sy :
  lookup_transition (self (__init__ h)) st sy = None.
Proof.
  unfold lookup_transition, __init__. fields.
  destruct (decide (st = py "q0")) as [->|Hne].
  - by rewrite lookup_singleton_eq.
  - by rewrite lookup_singleton_ne.
Qed.

(** What [load_from_file] builds from a document whose instructions
    all parse. *)
Lemma load_from_file_Ok (data : document) (h : store) :
  one_instruction_per_key (doc_entries (doc_states data)) →
  well_formed_entries (doc_entries (doc_states data)) →
  ∃ m h', load_from_file data h = (Ok m, h')
    ∧ h' !! tape m
      = Some (match doc_tape data with [] => [BLANK_SYMBOL] | v => v end)
    ∧ current_state m = py "q0"
    ∧ head_position m = 0
    ∧ step_count m = 0
    ∧ history m = []
    ∧ saved_state m = None
    ∧ (∀ st sy tr, lookup_transition m st sy = Some tr
         ↔ ∃ ins, (st, sy, ins) ∈ doc_entries (doc_states data)
                  ∧ Transition.from_str ins = Ok tr)
    ∧ (∀ st, is_Some (states m !! st)
         ↔ st = py "q0" ∨ ∃ sy ins, (st, sy, ins) ∈ doc_entries (doc_states data))
    ∧ (∀ x, x ∈ symbols m
         ↔ x = BLANK_SYMBOL ∨ ∃ st ins, (st, x, ins) ∈ doc_entries (doc_states data))
    ∧ ∀ l v, h !! l = Some v → h' !! l = Some v.
Proof.
  intros Hfun Hwf. unfold load_from_file.
  assert (heap (__init__ (h ++ [doc_tape data])) !! length h = Some (doc_tape data))
    as Hs.
  { unfold __init__. fields. rewrite <- app_assoc. by apply list_lookup_middle. }
  rewrite (bind_Ok _ _ _ _ _ (set_tape_live _ _ _ Hs)).
  set (w1 := match doc_tape data with [] => _ | _ => _ end).
  rewrite load_loops_flat.
  destruct (entries_loop (doc_entries (doc_states data)) w1 Hfun)
    as (w' & -> & Hheap & Hcs & Htp & Hhd & Hsc & Hsv & Hhi & Hlk & Hst & Hsy).
  { intros [[st sy] ins] He. destruct (Hwf _ _ _ He) as (a & b & d & Hsp).
    exists (Transition.mk b a d). by apply from_str_Ok_iff. }
  assert (states (self w1) = {[ py "q0" := ∅ ]}
          ∧ symbols (self w1) = {[ BLANK_SYMBOL ]}
          ∧ current_state (self w1) = py "q0" ∧ head_position (self w1) = 0
          ∧ step_count (self w1) = 0 ∧ history (self w1) = []
          ∧ saved_state (self w1) = None
          ∧ heap w1 !! tape (self w1)
            = Some (match doc_tape data with [] => [BLANK_SYMBOL] | v => v end)
          ∧ ∃ extra, heap w1 = h ++ extra)
    as (Hst1 & Hsy1 & Hcs1 & Hhd1 & Hsc1 & Hhi1 & Hsv1 & Htp1 & extra & Hex).
  { subst w1. unfold __init__ in *. destruct (doc_tape data) as [|c v]; fields.
    - split_and!; try done.
      + by apply list_lookup_middle.
      + rewrite <- !app_assoc. eauto.
    - split_and!; try done. rewrite <- !app_assoc. eauto. }
  exists (self w'), (heap w'). split; [done|].
  rewrite Hheap, Htp, Hcs, Hhd, Hsc, Hhi, Hsv.
  split_and!; try done.
  - intros st sy tr. rewrite Hlk. split; [|by right].
    intros [[Hinit _]|?]; [|done].
    assert (lookup_transition (self w1) st sy = None) as Hn; [|congruence].
    unfold lookup_transition. rewrite Hst1.
    destruct (decide (st = py "q0")) as [->|Hne].
    + by rewrite lookup_singleton_eq.
    + by rewrite lookup_singleton_ne.
  - intros st. rewrite Hst, Hst1. split.
    + intros [Hq|?]; [left|by right].
      destruct (decide (st = py "q0")) as [->|Hne]; [done|].
      rewrite lookup_singleton_ne in Hq by done. by destruct Hq.
    + intros [->|?]; [left|by right]. rewrite lookup_singleton_eq. eauto.
  - intros x. rewrite Hsy, Hsy1, elem_of_singleton. done.
  - intros l v Hl. rewrite Hex. by apply lookup_app_l_Some.
Qed.

(** X13: loading a document. From a document whose instructions are all
    three words with a direction token last (no pair of keys with two
    different instructions) [load_from_file] returns a machine in state
    [q0] with head 0, step count 0, empty history and nothing saved; its
    tape is the document's, or one blank cell if that is empty; its
    table has exactly the entries of the document, parsed, and [q0];
    its symbols are the blank and the read symbols of the entries; the
    lists already in the store are untouched. *)
Theorem load_from_file_builds (data : document) (h : store) :
  one_instruction_per_key (doc_entries (doc_states data)) →
  well_formed_entries (doc_entries (doc_states data)) →
  ∃ m h', load_from_file data h = (Ok m, h')
    ∧ h' !! tape m
      = Some (match doc_tape data with [] => [BLANK_SYMBOL] | v => v end)
    ∧ current_state m = py "q0"
    ∧ head_position m = 0
    ∧ step_count m = 0
    ∧ history m = []
    ∧ saved_state m = None
    ∧ (∀ st sy tr, lookup_transition m st sy = Some tr
         ↔ ∃ row ins, (st, row) ∈ doc_states data ∧ (sy, ins) ∈ row
                      ∧ Transition.from_str ins = Ok tr)
    ∧ (∀ st, is_Some (states m !! st)
         ↔ st = py "q0" ∨ ∃ row, (st, row) ∈ doc_states data ∧ row ≠ [])
    ∧ (∀ x, x ∈ symbols m
         ↔ x = BLANK_SYMBOL
           ∨ ∃ st row ins, (st, row) ∈ doc_states data ∧ (x, ins) ∈ row)
    ∧ ∀ l v, h !! l = Some v → h' !! l = Some v.
Proof.
  intros Hfun Hwf.
  destruct (load_from_file_Ok data h Hfun Hwf)
    as (m & h' & E & ? & ? & ? & ? & ? & ? & Hlk & Hst & Hsy & ?).
  exists m, h'. split_and!; try done.
  - intros st sy tr. rewrite Hlk. split.
    + intros (ins & (row & ? & ?)%elem_of_doc_entries & ?). eauto.
    + intros (row & ins & ? & ? & ?). exists ins.
      split; [apply elem_of_doc_entries; eauto|done].
  - intros st. rewrite Hst. split.
    + intros [?|(sy & ins & (row & ? & Hin)%elem_of_doc_entries)]; [by left|right].
      exists row. split; [done|]. intros ->. by apply elem_of_nil in Hin.
    + intros [?|(row & ? & Hne)]; [by left|right].
      destruct row as [|[sy ins] row]; [done|]. exists sy, ins.
      apply elem_of_doc_entries. exists ((sy, ins) :: row). split; [done|by left].
  - intros x. rewrite Hsy. split.
    + intros [?|(st & ins & (row & ? & ?)%elem_of_doc_entries)]; [by left|right].
      eauto.
    + intros [?|(st & row & ins & ? & ?)]; [by left|right].
      exists st, ins. apply elem_of_doc_entries. eauto.
Qed.

Lemma load_from_file_builds_witness :
  ∃ m h', load_from_file flip_document [] = (Ok m, h')
    ∧ h' !! tape m = Some [py "0"; py "0"]
    ∧ current_state m = py "q0"
    ∧ head_position m = 0
    ∧ step_count m = 0
    ∧ history m = []
    ∧ saved_state m = None
    ∧ (∀ st sy tr, lookup_transition m st sy = Some tr
         ↔ ∃ row ins, (st, row) ∈ doc_states flip_document ∧ (sy, ins) ∈ row
                      ∧ Transition.from_str ins = Ok tr)
    ∧ (∀ st, is_Some (states m !! st)
         ↔ st = py "q0" ∨ ∃ row, (st, row) ∈ doc_states flip_document ∧ row ≠ [])
    ∧ (∀ x, x ∈ symbols m
         ↔ x = BLANK_SYMBOL
           ∨ ∃ st row ins, (st, row) ∈ doc_states flip_document ∧ (x, ins) ∈ row)
    ∧ ∀ l v, ([] : store) !! l = Some v → h' !! l = Some v.
Proof.
  apply (load_from_file_builds flip_document []).
  - intros st sy i1 i2 H1 H2. cbn in H1, H2.
    repeat match goal with
           | H : _ ∈ _ :: _ |- _ => apply elem_of_cons in H as [H|H]
           | H : _ ∈ [] |- _ => by apply elem_of_nil in H
           end; vm_compute in H1, H2; congruence.
  - intros st sy ins H. cbn in H.
    repeat match goal with
           | H : _ ∈ _ :: _ |- _ => apply elem_of_cons in H as [H|H]
           | H : _ ∈ [] |- _ => by apply elem_of_nil in H
           end; injection H as -> -> ->.
    + by exists (py "1"), (py "q0"), Direction.RIGHT.
    + by exists (py "_"), (py "q1"), Direction.STOP.
Defined.

(** A state with an empty row in the document gets no row in the
    table: an instruction that names it fails when it is reached. *)
Example load_drops_empty_rows :
  ∃ m h', load_from_file flip_document [] = (Ok m, h')
    ∧ states m !! py "q1" = None
    ∧ fst <$> run 5 (World h' m) = Some (Raise (InvalidStateError (py "q1"))).
Proof. eexists _, _. split; [vm_compute; reflexivity|]. by vm_compute. Qed.

(** ** The table of a machine a caller can obtain *)

Lemma table_wf_same m m' :
  states m' = states m → symbols m' = symbols m → table_wf m → table_wf m'.
Proof.
  unfold table_wf, lookup_transition. intros -> ->. done.
Qed.

Lemma table_wf_init h : table_wf (self (__init__ h)).
Proof.
  split_and!.
  - unfold __init__. fields. rewrite lookup_singleton_eq. eauto.
  - unfold __init__. fields. intros st Hst.
    destruct (decide (st = py "q0")) as [->|Hne]; [done|].
    by rewrite lookup_singleton_ne in Hst.
  - intros st sy tr. by rewrite lookup_transition_init.
  - intros sy. unfold __init__ at 1. fields. rewrite elem_of_singleton.
    split; [by left|]. intros [?|(st & tr & Hl)]; [done|].
    by rewrite lookup_transition_init in Hl.
Qed.

Lemma table_wf_new_transition state symbol instruction w :
  table_wf (self w) →
  table_wf (self (snd (new_transition state symbol instruction w))).
Proof.
  intros (Hq0 & Hrows & Hwords & Hsyms).
  destruct (Transition.from_str instruction) as [tr|e] eqn:E; last first.
  { by rewrite (new_transition_failed _ _ _ _ _ E). }
  rewrite (new_transition_parsed _ _ _ _ _ E). cbn [snd].
  set (w' := World _ _).
  assert (∀ st sy, lookup_transition (self w') st sy
                   = if decide ((st, sy) = (state, symbol)) then Some tr
                     else lookup_transition (self w) st sy) as Hlk.
  { intros st sy. by apply lookup_transition_insert. }
  split_and!.
  - subst w'. fields. by apply table_le_insert.
  - subst w'. fields. intros st Hst.
    destruct (decide (st = state)) as [->|Hne].
    + rewrite lookup_insert_eq in Hst. injection Hst as Hst.
      by apply insert_non_empty in Hst.
    + rewrite lookup_insert_ne in Hst by done. by apply Hrows.
  - intros st sy tr'. rewrite Hlk. case_decide.
    + intros [= <-]. by apply (from_str_words instruction).
    + apply Hwords.
  - intros x. subst w'. fields. rewrite elem_of_union, elem_of_singleton, Hsyms.
    split.
    + intros [->|[?|(st & tr' & Hl)]]; [right|by left|right].
      * exists state, tr. rewrite Hlk. by rewrite decide_True.
      * exists st. rewrite Hlk. case_decide; eauto.
    + intros [?|(st & tr' & Hl)]; [by right; left|].
      rewrite Hlk in Hl. case_decide as Hk.
      * injection Hk as -> ->. by left.
      * right. right. eauto.
Qed.

Lemma reachable_table_wf w : reachable w → table_wf (self w).
Proof.
  induction 1 as [h|w v _ IH|w st sy ins _ IH|w s _ IH|w _ IH|w _ IH|w _ IH|w _ IH|w _ IH].
  - apply table_wf_init.
  - done.
  - by apply table_wf_new_transition.
  - destruct (set_tape_effect s w) as (_ & _ & Hst & Hsy & _).
    by apply (table_wf_same (self w)).
  - destruct (run_transition_frame w) as (_ & _ & Hst & Hsy & _).
    by apply (table_wf_same (self w)).
  - destruct (get_state_info_frame w) as (_ & ->). done.
  - destruct (save_tape_frame w) as (_ & _ & Hst & Hsy & _).
    by apply (table_wf_same (self w)).
  - destruct (load_tape_frame w) as (_ & _ & Hst & Hsy & _).
    by apply (table_wf_same (self w)).
  - destruct (step_back_frame w) as (_ & _ & Hst & Hsy & _).
    by apply (table_wf_same (self w)).
Qed.

(** ** Saving and loading again *)

Lemma save_to_file_eq w t :
  heap w !! tape (self w) = Some t →
  save_to_file w
  = (Ok (Document t
           (map (λ '(state_name, state),
                   (state_name,
                    map (λ '(symbol, transition),
                           (symbol, Transition.to_str transition))
                        (map_to_list state)))
                (map_to_list (states (self w))))), w).
Proof.
  intros Ht. unfold save_to_file. msimpl.
  rewrite (bind_Ok _ _ _ _ _ (list_get_eq _ _ _ Ht)). by msimpl.
Qed.

Lemma elem_of_saved_entries (table : gmap str (gmap str Transition.t)) st sy ins :
  (st, sy, ins)
    ∈ doc_entries
        (map (λ '(state_name, state),
                (state_name,
                 map (λ '(symbol, transition),
                        (symbol, Transition.to_str transition))
                     (map_to_list state)))
             (map_to_list table))
  ↔ ∃ row tr, table !! st = Some row ∧ row !! sy = Some tr
              ∧ ins = Transition.to_str tr.
Proof.
  rewrite elem_of_doc_entries. split.
  - intros (row & Hrow & Hin).
    apply list_elem_of_fmap in Hrow as ([st' r] & [= -> ->] & Hr).
    apply elem_of_map_to_list in Hr.
    apply list_elem_of_fmap in Hin as ([sy' tr] & [= -> ->] & Htr).
    apply elem_of_map_to_list in Htr. eauto.
  - intros (r & tr & Hr & Htr & ->). eexists. split.
    + apply list_elem_of_fmap. exists (st, r).
      split; [done|]. by apply elem_of_map_to_list.
    + apply list_elem_of_fmap. exists (sy, tr).
      split; [done|]. by apply elem_of_map_to_list.
Qed.

Lemma same_document_refl data : same_document data data.
Proof.
  split; [done|]. exists (doc_states data). split; [done|].
  apply Forall2_same_length_lookup. split; [done|].
  intros i r r' Hr Hr'. assert (r = r') as -> by congruence. done.
Qed.

Lemma same_document_entries data data' :
  same_document data data' →
  doc_entries (doc_states data') ≡ₚ doc_entries (doc_states data).
Proof.
  intros (_ & rows & Hperm & Hrows). unfold doc_entries.
  rewrite (Permutation_flat_map _ Hperm). clear Hperm.
  induction Hrows as [|[st r] [st' r'] rows rows' [Hst Hr] _ IH]; [done|].
  cbn in Hst, Hr. subst st'. cbn [flat_map].
  apply Permutation_app; [|done]. symmetry. by apply Permutation_map.
Qed.

(** X14: saving and loading again. On a machine a caller can obtain,
    [save_to_file] returns and changes nothing; and from the document
    it wrote, with its states and entries in any order, [load_from_file]
    returns a machine with the same table, the same symbol set and the
    same tape contents, in state [q0] with head 0, step count 0, empty
    history and nothing saved. *)
Theorem save_then_load (w : world) :
  reachable w →
  ∃ data t, save_to_file w = (Ok data, w)
    ∧ tape_contents w = Some t ∧ doc_tape data = t
    ∧ ∀ data' h, same_document data data' →
        ∃ m' h', load_from_file data' h = (Ok m', h')
          ∧ states m' = states (self w)
          ∧ symbols m' = symbols (self w)
          ∧ h' !! tape m' = Some t
          ∧ current_state m' = py "q0"
          ∧ head_position m' = 0
          ∧ step_count m' = 0
          ∧ history m' = []
          ∧ saved_state m' = None.
Proof.
  intros Hr. pose proof (reachable_table_wf w Hr) as (Hq0 & Hrows & Hwords & Hsyms).
  destruct (reachable_consistent w Hr) as (_ & _ & _ & (t & Ht & Hhd) & _).
  unfold tape_contents in Ht.
  eexists _, t. split; [by apply save_to_file_eq|].
  split; [done|]. split; [done|].
  intros data' h Hsame.
  pose proof (same_document_entries _ _ Hsame) as Hperm. cbn [doc_states] in Hperm.
  destruct Hsame as [Htape _]. cbn [doc_tape] in Htape.
  assert (∀ st sy ins, (st, sy, ins) ∈ doc_entries (doc_states data')
            ↔ ∃ tr, lookup_transition (self w) st sy = Some tr
                    ∧ ins = Transition.to_str tr) as Hin.
  { intros st sy ins. rewrite Hperm, elem_of_saved_entries.
    unfold lookup_transition. split.
    - intros (row & tr & -> & ? & ?). eauto.
    - intros (tr & Hl & ?).
      destruct (states (self w) !! st) as [row|]; [|done]. eauto. }
  destruct (load_from_file_Ok data' h)
    as (m' & h' & E & Htp & ? & ? & ? & ? & ? & Hlk & Hst & Hsy & _).
  { intros st sy i1 i2 (tr1 & H1 & ->)%Hin (tr2 & H2 & ->)%Hin. congruence. }
  { intros st sy ins (tr & Hl & ->)%Hin.
    destruct (Hwords _ _ _ Hl) as [Hw Hn].
    pose proof (from_str_to_str tr Hw Hn) as Hp. apply from_str_Ok_iff in Hp.
    eauto. }
  assert (∀ st sy, lookup_transition m' st sy = lookup_transition (self w) st sy)
    as Hsame.
  { intros st sy. apply option_eq. intros tr. rewrite Hlk. split.
    - intros (ins & (tr0 & Hl & ->)%Hin & Hp).
      destruct (Hwords _ _ _ Hl) as [Hw Hn].
      rewrite (from_str_to_str tr0 Hw Hn) in Hp. congruence.
    - intros Hl. exists (Transition.to_str tr). split; [apply Hin; eauto|].
      destruct (Hwords _ _ _ Hl) as [Hw Hn]. by apply from_str_to_str. }
  exists m', h'. split; [done|]. split_and!; try done.
  - apply map_eq. intros st.
    assert (is_Some (states m' !! st) ↔ is_Some (states (self w) !! st)) as Hiff.
    { rewrite Hst. split.
      - intros [->|(sy & ins & (tr & Hl & _)%Hin)]; [done|].
        unfold lookup_transition in Hl.
        destruct (states (self w) !! st); [eauto|done].
      - intros [row Hrow]. destruct (decide (row = ∅)) as [->|Hne].
        + left. by apply Hrows.
        + right. apply map_choose in Hne as (sy & tr & Htr).
          exists sy, (Transition.to_str tr). apply Hin. exists tr.
          split; [|done]. unfold lookup_transition. by rewrite Hrow. }
    destruct (states m' !! st) as [row'|] eqn:Hrow',
             (states (self w) !! st) as [row|] eqn:Hrow.
    + f_equal. apply map_eq. intros sy.
      specialize (Hsame st sy). unfold lookup_transition in Hsame.
      by rewrite Hrow', Hrow in Hsame.
    + destruct Hiff as [Hiff _]. by destruct Hiff.
    + destruct Hiff as [_ Hiff]. by destruct Hiff.
    + done.
  - apply set_eq. intros x. rewrite Hsy, Hsyms. split.
    + intros [?|(st & ins & (tr & Hl & _)%Hin)]; [by left|right]. eauto.
    + intros [?|(st & tr & Hl)]; [by left|right].
      exists st, (Transition.to_str tr). apply Hin. eauto.
  - rewrite Htp, Htape. destruct t; [|done]. cbn [length] in Hhd. lia.
Qed.

Lemma save_then_load_witness :
  ∃ data t, save_to_file two_step_machine = (Ok data, two_step_machine)
    ∧ tape_contents two_step_machine = Some t ∧ doc_tape data = t
    ∧ ∀ data' h, same_document data data' →
        ∃ m' h', load_from_file data' h = (Ok m', h')
          ∧ states m' = states (self two_step_machine)
          ∧ symbols m' = symbols (self two_step_machine)
          ∧ h' !! tape m' = Some t
          ∧ current_state m' = py "q0"
          ∧ head_position m' = 0
          ∧ step_count m' = 0
          ∧ history m' = []
          ∧ saved_state m' = None.
Proof.
  apply (save_then_load two_step_machine).
  apply reach_new_transition, reach_new_transition, reach_init.
Defined.

Lemma get_symbols_sorted_witness :
  (∀ x, x ∈ [py "_"; py "0"] ↔ x ∈ symbols (self flip_machine))
  ∧ NoDup [py "_"; py "0"]
  ∧ StronglySorted key_le [py "_"; py "0"]
  ∧ (∀ x y, x ∈ [py "_"; py "0"] → y ∈ [py "_"; py "0"] →
            key_of x = key_of y → x = y)
  ∧ (∀ x, x ∈ [py "_"; py "0"] → x = py "_" ∨ (length x = 1%nat ∧ 0 ≤ key_of x))
  ∧ (py "_" ∈ symbols (self flip_machine) → head [py "_"; py "0"] = Some (py "_"))
  ∧ ∀ l', l' ≡ₚ [py "_"; py "0"] → Sorted key_le l' → l' = [py "_"; py "0"].
Proof.
  apply (get_symbols_sorted (self flip_machine) [py "_"; py "0"]).
  vm_compute. reflexivity.
Defined.

(** A symbol of two characters in the set: no order. *)
Example get_symbols_two_characters :
  get_symbols (self (snd (new_transition (py "q0") (py "ab") (py "_ q0 !")
                            (__init__ []))))
  = inr TypeError.
Proof. by vm_compute. Qed.

Lemma reachable_step_outcomes_witness :
  ∃ symbol, fst (current_symbol two_step_machine) = Ok symbol
    ∧ (fst (run_transition two_step_machine) = Ok 0
       ∨ fst (run_transition two_step_machine) = Ok 1
       ∨ fst (run_transition two_step_machine) = Raise (NoTransitionError symbol)
       ∨ ∃ s, fst (run_transition two_step_machine) = Raise (InvalidStateError s)).
Proof.
  apply (reachable_step_outcomes two_step_machine).
  apply reach_new_transition, reach_new_transition, reach_init.
Defined.

(** ** What holds of every machine a caller can obtain *)

(** X15: the shape of a machine. On a machine a caller can obtain, the
    tape is a live, non-empty list with the head on one of its cells;
    the current state and [q0] have rows in the table; no state but
    [q0] has an empty row; the write symbol and the next state of every
    transition are non-empty and free of whitespace; the symbol set is
    the blank together with the symbols the table has entries for; and
    every snapshot of the history and the saved one name a state of the
    table and a live list with their head on it. *)
Theorem reachable_machine_shape (w : world) :
  reachable w →
  (∃ t, tape_contents w = Some t ∧ t ≠ []
        ∧ 0 ≤ head_position (self w) < Z.of_nat (length t))
  ∧ is_Some (states (self w) !! current_state (self w))
  ∧ is_Some (states (self w) !! py "q0")
  ∧ (∀ st, states (self w) !! st = Some ∅ → st = py "q0")
  ∧ (∀ st sy tr, lookup_transition (self w) st sy = Some tr →
       word (Transition.write_symbol tr) ∧ word (Transition.next_state tr))
  ∧ (∀ sy, sy ∈ symbols (self w)
           ↔ sy = BLANK_SYMBOL ∨ ∃ st tr, lookup_transition (self w) st sy = Some tr)
  ∧ (∀ s, s ∈ history (self w) ∨ saved_state (self w) = Some s →
          is_Some (states (self w) !! StateInfo.current_state s)
          ∧ ∃ t, heap w !! StateInfo.tape s = Some t
                 ∧ 0 ≤ StateInfo.head_position s < Z.of_nat (length t)).
Proof.
  intros Hr.
  destruct (reachable_consistent w Hr)
    as (_ & Hq0 & Hcur & (t & Ht & Hhd) & Hhist & Hsaved).
  destruct (reachable_table_wf w Hr) as (_ & Hrows & Hwords & Hsyms).
  split_and!; [|done..|].
  - exists t. split; [done|]. split; [|done]. intros ->. cbn [length] in Hhd. lia.
  - intros s [Hs|Hs]; [|by apply Hsaved].
    rewrite Forall_forall in Hhist. by apply Hhist.
Qed.

Lemma two_step_machine_reachable : reachable two_step_machine.
Proof. apply reach_new_transition, reach_new_transition, reach_init. Qed.

Lemma reachable_machine_shape_witness :
  (∃ t, tape_contents (snd (run_transition two_step_machine)) = Some t ∧ t ≠ []
        ∧ 0 ≤ head_position (self (snd (run_transition two_step_machine)))
            < Z.of_nat (length t))
  ∧ is_Some (states (self (snd (run_transition two_step_machine)))
               !! current_state (self (snd (run_transition two_step_machine)))).
Proof.
  destruct (reachable_machine_shape (snd (run_transition two_step_machine)))
    as (Htape & Hcur & _).
  - apply reach_run_transition, two_step_machine_reachable.
  - split; [exact Htape|exact Hcur].
Defined.

(** X16: undoing, saving and restoring return. On a machine a caller can
    obtain, [step_back] returns 0 when the history is empty and 1
    otherwise, [get_state_info] returns the snapshot of the machine, and
    [save_tape] and [load_tape] return; none of them raises. The tape
    [step_back] and [load_tape] install is a new list: a copy of the
    snapshot's, which later steps leave as it is; and the tape of the
    snapshot [get_state_info] returns holds the contents of the
    machine's tape. *)
Theorem reachable_calls_return (w : world) :
  reachable w →
  fst (step_back w) = Ok (if decide (history (self w) = []) then 0 else 1)
  ∧ (history (self w) ≠ [] → tape (self (snd (step_back w))) = length (heap w))
  ∧ fst (get_state_info w) = Ok (snapshot w)
  ∧ fst (save_tape w) = Ok tt
  ∧ saved_state (self (snd (save_tape w))) = Some (snapshot w)
  ∧ fst (load_tape w) = Ok tt
  ∧ (is_Some (saved_state (self w)) →
     tape (self (snd (load_tape w))) = length (heap w))
  ∧ heap (snd (get_state_info w)) !! StateInfo.tape (snapshot w) = tape_contents w
  ∧ (∀ prev, last (history (self w)) = Some prev →
       tape_contents (snd (step_back w)) = heap w !! StateInfo.tape prev)
  ∧ (∀ saved, saved_state (self w) = Some saved →
       tape_contents (snd (load_tape w)) = heap w !! StateInfo.tape saved).
Proof.
  intros Hr.
  destruct (reachable_consistent w Hr)
    as (_ & _ & _ & (t & Ht & _) & Hhist & Hsaved).
  unfold tape_contents in Ht.
  assert (fst (step_back w) = Ok (if decide (history (self w) = []) then 0 else 1)
          ∧ (history (self w) ≠ [] → tape (self (snd (step_back w))) = length (heap w)))
    as [Hback Hback'].
  { destruct (last (history (self w))) as [prev|] eqn:Hlast.
    - assert (history (self w) ≠ []) as Hne by (intros E; by rewrite E in Hlast).
      rewrite decide_False by done.
      assert (prev ∈ history (self w)) as Hin.
      { apply last_Some in Hlast as [h' ->]. apply elem_of_app. right. by left. }
      rewrite Forall_forall in Hhist.
      destruct (Hhist _ Hin) as (_ & v & Hv & _).
      by rewrite (step_back_eq _ _ _ Hlast Hv).
    - apply last_None in Hlast. rewrite decide_True by done.
      by rewrite (step_back_empty _ Hlast). }
  split_and!; try done.
  - by rewrite (get_state_info_eq _ _ Ht).
  - unfold save_tape. by rewrite (bind_Ok _ _ _ _ _ (get_state_info_eq _ _ Ht)).
  - unfold save_tape. by rewrite (bind_Ok _ _ _ _ _ (get_state_info_eq _ _ Ht)).
  - destruct (saved_state (self w)) as [saved|] eqn:Hs.
    + destruct (Hsaved _ eq_refl) as (_ & v & Hv & _).
      pose proof (restore_eq w saved v Hv) as E.
      unfold load_tape. rewrite bind_attr, Hs. by rewrite E.
    + unfold load_tape. by rewrite bind_attr, Hs.
  - intros [saved Hs]. destruct (Hsaved _ Hs) as (_ & v & Hv & _).
    pose proof (restore_eq w saved v Hv) as E.
    unfold load_tape. rewrite bind_attr, Hs. by rewrite E.
  - rewrite (get_state_info_eq _ _ Ht). unfold snapshot, tape_contents. fields.
    rewrite Ht. by apply list_lookup_middle.
  - intros prev Hlast.
    assert (prev ∈ history (self w)) as Hin.
    { apply last_Some in Hlast as [h' ->]. apply elem_of_app. right. by left. }
    rewrite Forall_forall in Hhist.
    destruct (Hhist _ Hin) as (_ & v & Hv & _).
    rewrite (step_back_eq _ _ _ Hlast Hv). unfold tape_contents. fields.
    rewrite Hv. by apply list_lookup_middle.
  - intros saved Hs. destruct (Hsaved _ Hs) as (_ & v & Hv & _).
    pose proof (restore_eq w saved v Hv) as E.
    unfold load_tape. rewrite bind_attr, Hs. rewrite E.
    unfold tape_contents. fields. rewrite Hv. by apply list_lookup_middle.
Qed.

Lemma reachable_calls_return_witness :
  fst (step_back (snd (run_transition two_step_machine))) = Ok 1
  ∧ fst (load_tape (snd (run_transition two_step_machine))) = Ok tt.
Proof.
  destruct (reachable_calls_return (snd (run_transition two_step_machine)))
    as (Hback & _ & _ & _ & _ & Hload & _).
  - apply reach_run_transition, two_step_machine_reachable.
  - split; [exact Hback|exact Hload].
Defined.

(** ** The loop of [run] *)

Lemma step_count_raise w e w' :
  run_transition w = (Raise e, w') → step_count (self w') = step_count (self w).
Proof.
  intros Hrun.
  destruct (run_transition_cases w)
    as [(t & i & symbol & row & ins & Hen)|(e' & He & _)]; [|congruence].
  destruct (states (self w) !! Transition.next_state ins) as [x|] eqn:Hnext.
  - destruct (decide (Transition.direction ins = Direction.STOP)) as [Hd|Hd].
    + by rewrite (run_transition_halt _ _ _ _ _ _ _ Hen Hnext Hd) in Hrun.
    + by rewrite (run_transition_move _ _ _ _ _ _ _ Hen Hnext Hd) in Hrun.
  - rewrite (run_transition_unknown _ _ _ _ _ _ Hen Hnext) in Hrun.
    by injection Hrun as _ <-.
Qed.

(** X17: when [run] returns. [run] returns exactly when, after some
    number of steps that each return 1, a step returns 0, and it raises
    what the first raising step raises; the machine is left as that
    last step left it, with the step count advanced by the number of
    steps that returned. *)
Theorem run_returns (fuel : nat) (w w' : world) (o : outcome unit) :
  run fuel w = Some (o, w')
  ↔ ∃ n w1, (n < fuel)%nat ∧ iterations n w = Some w1
      ∧ ((o = Ok tt ∧ run_transition w1 = (Ok 0, w')
          ∧ step_count (self w') = step_count (self w) + Z.of_nat n + 1)
         ∨ (∃ e, o = Raise e ∧ run_transition w1 = (Raise e, w')
            ∧ step_count (self w') = step_count (self w) + Z.of_nat n)).
Proof.
  revert w. induction fuel as [|fuel IH]; intros w.
  { split; [done|]. intros (n & _ & ? & _). lia. }
  cbn [run]. destruct (run_transition w) as [[r|e] w0] eqn:Hrun.
  - destruct (r =? 0) eqn:Hr.
    + apply Z.eqb_eq in Hr as ->. split.
      * intros [= <- <-]. exists 0%nat, w. split; [lia|]. split; [done|]. left.
        split_and!; try done.
        destruct (run_transition_Ok _ _ _ Hrun) as [_ ->]. lia.
      * intros (n & w1 & _ & Hit & Hlast). destruct n as [|n].
        -- injection Hit as <-. rewrite Hrun in Hlast.
           destruct Hlast as [(-> & [= <-] & _)|(e & _ & [=] & _)]. done.
        -- cbn [iterations] in Hit. rewrite Hrun in Hit. done.
    + destruct (run_transition_Ok _ _ _ Hrun) as [_ Hsc]. rewrite IH. split.
      * intros (n & w1 & Hn & Hit & Hlast). exists (S n), w1.
        split; [lia|]. split; [cbn [iterations]; by rewrite Hrun, Hr|].
        destruct Hlast as [(? & ? & ?)|(e & ? & ? & ?)]; [left|right].
        -- split_and!; try done. lia.
        -- exists e. split_and!; try done. lia.
      * intros (n & w1 & Hn & Hit & Hlast). destruct n as [|n].
        -- injection Hit as <-. rewrite Hrun in Hlast.
           destruct Hlast as [(_ & [= -> _] & _)|(e & _ & [=] & _)]. done.
        -- cbn [iterations] in Hit. rewrite Hrun, Hr in Hit.
           exists n, w1. split; [lia|]. split; [done|].
           destruct Hlast as [(? & ? & ?)|(e & ? & ? & ?)]; [left|right].
           ++ split_and!; try done. lia.
           ++ exists e. split_and!; try done. lia.
  - split.
    + intros [= <- <-]. exists 0%nat, w. split; [lia|]. split; [done|]. right.
      exists e. split_and!; try done.
      pose proof (step_count_raise w e w0 Hrun). lia.
    + intros (n & w1 & _ & Hit & Hlast). destruct n as [|n].
      * injection Hit as <-. rewrite Hrun in Hlast.
        destruct Hlast as [(_ & [=] & _)|(e' & -> & [= <- <-] & _)]. done.
      * cbn [iterations] in Hit. by rewrite Hrun in Hit.
Qed.

(** [two_step_machine] halts in its second step. *)
Example run_two_step_machine :
  ∃ w', run 2 two_step_machine = Some (Ok tt, w')
    ∧ step_count (self w') = 2
    ∧ tape_contents w' = Some [py "1"; py "_"]
    ∧ run 1 two_step_machine = None.
Proof. eexists. split; [vm_compute; reflexivity|]. by vm_compute. Qed.

(** ** The table editor *)

Lemma elem_of_filled_cells cells st sy value :
  (st, sy, value) ∈ filled_cells cells
  ↔ ∃ text, (st, sy, text) ∈ cells ∧ strip text = value ∧ value ≠ [].
Proof.
  unfold filled_cells. rewrite list_elem_of_In, in_flat_map. split.
  - intros ([[st' sy'] text] & Hc%list_elem_of_In & Hin).
    destruct (strip text) as [|c v] eqn:E; [done|].
    destruct Hin as [[= -> -> <-]|[]]. eauto.
  - intros (text & Hc & <- & Hne). exists (st, sy, text).
    split; [by apply list_elem_of_In|].
    destruct (strip text); [done|by left].
Qed.

(** The loop over the cells is the loop of [new_transition]s over the
    filled ones. *)
Lemma apply_cells_filled cells w :
  for_each cells apply_cell w
  = for_each (filled_cells cells)
      (λ '(state_name, symbol, transition),
         new_transition state_name symbol transition) w.
Proof.
  revert w. induction cells as [|[[st sy] text] cells IH]; intros w; [done|].
  cbn [for_each]. unfold filled_cells. cbn [flat_map]. fold (filled_cells cells).
  unfold apply_cell at 1. destruct (strip text) as [|c v].
  - cbn [app]. unfold bind, ret. apply IH.
  - cbn [app for_each]. apply bind_ext. intros _ w1. apply IH.
Qed.

Lemma filled_cells_keys cells :
  NoDup (entry_key <$> cells) → NoDup (entry_key <$> filled_cells cells).
Proof.
  induction cells as [|[[st sy] text] cells IH]; [done|].
  rewrite fmap_cons, NoDup_cons. intros [Hnin Hnd].
  unfold filled_cells. cbn [flat_map]. fold (filled_cells cells).
  destruct (strip text) as [|c v]; [by apply IH|].
  cbn [app]. rewrite fmap_cons, NoDup_cons. split; [|by apply IH].
  intros ([[st' sy'] value] & Hk & Hin)%list_elem_of_fmap. cbn in Hk.
  injection Hk as <- <-.
  apply elem_of_filled_cells in Hin as (text' & Hin & _).
  apply Hnin. apply list_elem_of_fmap. by exists (st, sy, text').
Qed.

Lemma NoDup_keys_one_instruction es :
  NoDup (entry_key <$> es) → one_instruction_per_key es.
Proof.
  intros Hnd st sy i1 i2 H1 H2.
  apply list_elem_of_lookup in H1 as [j1 H1], H2 as [j2 H2].
  assert (j1 = j2) as ->; [|congruence].
  apply (NoDup_lookup _ _ _ (st, sy) Hnd); rewrite list_lookup_fmap.
  - by rewrite H1.
  - by rewrite H2.
Qed.

Lemma lookup_transition_empty m st sy :
  states m = ∅ → lookup_transition m st sy = None.
Proof. unfold lookup_transition. intros ->. by rewrite lookup_empty. Qed.

(** X18: applying the table. When every cell that holds more than
    whitespace holds an instruction that parses, [apply_transitions]
    shows no error, and the table of the machine is then exactly the
    filled cells, parsed: what the table held before is gone, also the
    row of [q0]. The symbols only grow; the tape, the head, the state,
    the step count, the history and the saved snapshot are as
    before. *)
Theorem apply_transitions_table (cells : list (str * str * str)) (w : world) :
  NoDup (entry_key <$> cells) →
  (∀ st sy text, (st, sy, text) ∈ cells → strip text ≠ [] →
     ∃ tr, Transition.from_str (strip text) = Ok tr) →
  ∃ w', apply_transitions cells w = (None, w')
    ∧ (∀ st sy tr, lookup_transition (self w') st sy = Some tr
         ↔ ∃ text, (st, sy, text) ∈ cells ∧ strip text ≠ []
                   ∧ Transition.from_str (strip text) = Ok tr)
    ∧ (∀ st, is_Some (states (self w') !! st)
         ↔ ∃ sy text, (st, sy, text) ∈ cells ∧ strip text ≠ [])
    ∧ (∀ x, x ∈ symbols (self w')
         ↔ x ∈ symbols (self w) ∨ ∃ st text, (st, x, text) ∈ cells ∧ strip text ≠ [])
    ∧ heap w' = heap w
    ∧ current_state (self w') = current_state (self w)
    ∧ tape (self w') = tape (self w)
    ∧ head_position (self w') = head_position (self w)
    ∧ step_count (self w') = step_count (self w)
    ∧ saved_state (self w') = saved_state (self w)
    ∧ history (self w') = history (self w).
Proof.
  intros Hnd Hparse. unfold apply_transitions.
  unfold set_states. rewrite bind_update, apply_cells_filled.
  set (w0 := World (heap w) (with_states ∅ (self w))).
  destruct (entries_loop (filled_cells cells) w0)
    as (w' & -> & Hheap & Hcs & Htp & Hhd & Hsc & Hsv & Hhi & Hlk & Hst & Hsy).
  { by apply NoDup_keys_one_instruction, filled_cells_keys. }
  { intros [[st sy] value] (text & Hin & <- & Hne)%elem_of_filled_cells.
    by apply (Hparse st sy text). }
  exists w'. split; [done|].
  rewrite Hheap, Hcs, Htp, Hhd, Hsc, Hsv, Hhi.
  split_and!; try by (subst w0; destruct w as [h []]).
  - intros st sy tr. rewrite Hlk. split.
    + intros [[Hold _]|(value & (text & Hin & <- & Hne)%elem_of_filled_cells & Htr)].
      * by rewrite lookup_transition_empty in Hold.
      * eauto.
    + intros (text & Hin & Hne & Htr). right. exists (strip text).
      split; [apply elem_of_filled_cells; eauto|done].
  - intros st. rewrite Hst. split.
    + intros [Hold|(sy & value & (text & Hin & <- & Hne)%elem_of_filled_cells)].
      * subst w0. cbn in Hold. rewrite lookup_empty in Hold. by destruct Hold.
      * eauto.
    + intros (sy & text & Hin & Hne). right. exists sy, (strip text).
      apply elem_of_filled_cells. eauto.
  - intros x. rewrite Hsy. split.
    + intros [Hold|(st & value & (text & Hin & <- & Hne)%elem_of_filled_cells)].
      * left. by destruct w as [h []].
      * right. eauto.
    + intros [Hold|(st & text & Hin & Hne)].
      * left. by destruct w as [h []].
      * right. exists st, (strip text). apply elem_of_filled_cells. eauto.
Qed.

Lemma apply_transitions_table_witness :
  ∃ w', apply_transitions q1_cells two_step_machine = (None, w')
    ∧ (∀ st sy tr, lookup_transition (self w') st sy = Some tr
         ↔ ∃ text, (st, sy, text) ∈ q1_cells ∧ strip text ≠ []
                   ∧ Transition.from_str (strip text) = Ok tr)
    ∧ (∀ st, is_Some (states (self w') !! st)
         ↔ ∃ sy text, (st, sy, text) ∈ q1_cells ∧ strip text ≠ [])
    ∧ (∀ x, x ∈ symbols (self w')
         ↔ x ∈ symbols (self two_step_machine)
           ∨ ∃ st text, (st, x, text) ∈ q1_cells ∧ strip text ≠ [])
    ∧ heap w' = heap two_step_machine
    ∧ current_state (self w') = current_state (self two_step_machine)
    ∧ tape (self w') = tape (self two_step_machine)
    ∧ head_position (self w') = head_position (self two_step_machine)
    ∧ step_count (self w') = step_count (self two_step_machine)
    ∧ saved_state (self w') = saved_state (self two_step_machine)
    ∧ history (self w') = history (self two_step_machine).
Proof.
  apply (apply_transitions_table q1_cells two_step_machine).
  - apply (bool_decide_unpack _). vm_compute. reflexivity.
  - intros st sy text H Hne. unfold q1_cells in H.
    repeat match goal with
           | H : _ ∈ _ :: _ |- _ => apply elem_of_cons in H as [H|H]
           | H : _ ∈ [] |- _ => by apply elem_of_nil in H
           end; injection H as -> -> ->; try (by destruct Hne).
    eexists. vm_compute. reflexivity.
Defined.

(** A loop of [new_transition]s, whatever the entries: it touches
    nothing but the table and the symbols, and what the table holds
    afterwards it held before or got from an entry. *)
Lemma entries_loop_frame (es : list (str * str * str)) :
  ∀ w, ∃ o w',
    for_each es (λ '(state_name, symbol, transition),
                   new_transition state_name symbol transition) w = (o, w')
    ∧ heap w' = heap w
    ∧ current_state (self w') = current_state (self w)
    ∧ tape (self w') = tape (self w)
    ∧ head_position (self w') = head_position (self w)
    ∧ step_count (self w') = step_count (self w)
    ∧ saved_state (self w') = saved_state (self w)
    ∧ history (self w') = history (self w)
    ∧ (∀ st, is_Some (states (self w') !! st) →
         is_Some (states (self w) !! st) ∨ ∃ sy ins, (st, sy, ins) ∈ es)
    ∧ (∀ st sy tr, lookup_transition (self w') st sy = Some tr →
         lookup_transition (self w) st sy = Some tr ∨ ∃ ins, (st, sy, ins) ∈ es)
    ∧ ((∀ e, e ∈ es → ∃ tr, Transition.from_str e.2 = Ok tr) → o = Ok tt).
Proof.
  induction es as [|[[st0 sy0] ins0] es IH]; intros w.
  { exists (Ok tt), w. split_and!; auto. }
  cbn [for_each].
  destruct (Transition.from_str ins0) as [tr0|e0] eqn:E0; last first.
  { rewrite (bind_Raise _ _ _ _ _ (new_transition_failed st0 sy0 ins0 e0 w E0)).
    eexists _, w. split; [done|]. split_and!; auto.
    intros Hparse. destruct (Hparse (st0, sy0, ins0)) as [tr Htr]; [by left|].
    cbn in Htr. congruence. }
  rewrite (bind_Ok _ _ _ _ _ (new_transition_parsed st0 sy0 ins0 tr0 w E0)).
  set (w1 := World _ _).
  destruct (IH w1) as (o & w' & E & Hheap & ? & ? & ? & ? & ? & ? & Hst & Hlk & Hok).
  assert (∀ st sy, lookup_transition (self w1) st sy
                   = if decide ((st, sy) = (st0, sy0)) then Some tr0
                     else lookup_transition (self w) st sy) as Hlk1.
  { intros st sy. by apply lookup_transition_insert. }
  exists o, w'. split; [done|].
  split_and!; try by (subst w1; destruct w as [h []]).
  - intros st [Hold|(sy & ins & Hin)]%Hst.
    + subst w1. cbn in Hold. apply is_Some_insert_table in Hold as [->|?].
      * right. exists sy0, ins0. by left.
      * by left.
    + right. exists sy, ins. by right.
  - intros st sy tr [Hold|(ins & Hin)]%Hlk.
    + rewrite Hlk1 in Hold. case_decide as Hk.
      * injection Hk as -> ->. right. exists ins0. by left.
      * by left.
    + right. exists ins. by right.
  - intros Hparse. apply Hok. intros e He. apply Hparse. by right.
Qed.



(** X20: a cell that does not parse. When a cell holds text that is not
    an instruction and the filled cells before it all parse,
    [apply_transitions] shows [InvalidTransitionError] for that cell and
    leaves the machine as applying only the cells before it does: the
    cells after it are not applied, and of the table the machine had
    nothing is left but what those cells hold. *)
Theorem apply_transitions_bad_cell (before after : list (str * str * str))
    (st sy text : str) (e : exn) (w : world) :
  (∀ st' sy' text', (st', sy', text') ∈ before → strip text' ≠ [] →
     ∃ tr, Transition.from_str (strip text') = Ok tr) →
  strip text ≠ [] →
  Transition.from_str (strip text) = Raise e →
  apply_transitions (before ++ (st, sy, text) :: after) w
  = (Some (InvalidTransitionError st sy), snd (apply_transitions before w))
  ∧ fst (apply_transitions before w) = None
  ∧ ∀ st' sy' tr,
      lookup_transition (self (snd (apply_transitions before w))) st' sy' = Some tr →
      ∃ text', (st', sy', text') ∈ before ∧ strip text' ≠ [].
Proof.
  intros Hparse Hne Hbad. unfold apply_transitions, set_states.
  rewrite !bind_update, for_each_app, apply_cells_filled.
  set (w0 := World (heap w) (with_states ∅ (self w))).
  unfold bind at 1.
  rewrite apply_cells_filled.
  destruct (entries_loop_frame (filled_cells before) w0)
    as (o & w1 & -> & _ & _ & _ & _ & _ & _ & _ & _ & Hlk & Hok).
  rewrite Hok; last first.
  { intros [[st' sy'] value] (text' & Hin & <- & Hne')%elem_of_filled_cells.
    by apply (Hparse st' sy' text'). }
  cbn [fst snd]. split_and!; [|done|].
  - cbn [for_each]. unfold apply_cell at 1.
    destruct (strip text) as [|c v] eqn:E; [done|].
    by rewrite (bind_Raise _ _ _ _ _ (new_transition_failed st sy (c :: v) e w1 Hbad)).
  - intros st' sy' tr [Hold|(value & Hin)]%Hlk.
    + by rewrite lookup_transition_empty in Hold.
    + apply elem_of_filled_cells in Hin as (text' & Hin & <- & Hne'). eauto.
Qed.

Lemma apply_transitions_bad_cell_witness :
  apply_transitions bad_cells two_step_machine
  = (Some (InvalidTransitionError (py "q0") (py "1")),
     snd (apply_transitions [(py "q0", py "_", py "1 q1 >")] two_step_machine))
  ∧ fst (apply_transitions [(py "q0", py "_", py "1 q1 >")] two_step_machine) = None
  ∧ ∀ st' sy' tr,
      lookup_transition
        (self (snd (apply_transitions [(py "q0", py "_", py "1 q1 >")]
                      two_step_machine))) st' sy' = Some tr →
      ∃ text', (st', sy', text') ∈ [(py "q0", py "_", py "1 q1 >")]
               ∧ strip text' ≠ [].
Proof.
  apply (apply_transitions_bad_cell
           [(py "q0", py "_", py "1 q1 >")] [(py "q1", py "_", py "_ q1 !")]
           (py "q0") (py "1") (py "1 q1") ValueError two_step_machine).
  - intros st' sy' text' H _. apply list_elem_of_singleton in H.
    injection H as -> -> ->. eexists. vm_compute. reflexivity.
  - by vm_compute.
  - vm_compute. reflexivity.
Defined.

(** After the bad cell the machine has lost the row of [q1], which the
    first cell names: the step that was possible before now fails. *)
Example bad_cell_breaks_machine :
  fst (run_transition two_step_machine) = Ok 1
  ∧ fst (run_transition (snd (apply_transitions bad_cells two_step_machine)))
    = Raise (InvalidStateError (py "q1")).
Proof. by vm_compute. Qed.

(** ** Loading symbols that have no order *)

(** X21: a loaded machine whose symbols cannot be listed. A document
    whose instructions all parse loads, whatever the symbols of its
    entries; when one of them is not one character long, [get_symbols]
    raises [TypeError] on the machine [load_from_file] returned. *)
Theorem load_then_get_symbols_TypeError (data : document) (h : store)
    (st x ins : str) :
  one_instruction_per_key (doc_entries (doc_states data)) →
  well_formed_entries (doc_entries (doc_states data)) →
  (st, x, ins) ∈ doc_entries (doc_states data) →
  length x ≠ 1%nat →
  ∃ m h', load_from_file data h = (Ok m, h') ∧ get_symbols m = inr TypeError.
Proof.
  intros Hfun Hwf Hin Hlen.
  destruct (load_from_file_Ok data h Hfun Hwf)
    as (m & h' & E & _ & _ & _ & _ & _ & _ & _ & _ & Hsy & _).
  exists m, h'. split; [done|]. apply get_symbols_raises_iff.
  exists x. split_and!; [|by intros ->|done].
  apply Hsy. right. eauto.
Qed.

Lemma load_then_get_symbols_TypeError_witness :
  ∃ m h', load_from_file wide_document [] = (Ok m, h')
          ∧ get_symbols m = inr TypeError.
Proof.
  apply (load_then_get_symbols_TypeError wide_document [] (py "q0") (py "ab")
           (py "_ q0 !")).
  - intros st sy i1 i2 H1 H2. cbn in H1, H2.
    apply list_elem_of_singleton in H1, H2. congruence.
  - intros st sy ins H. cbn in H. apply list_elem_of_singleton in H.
    injection H as -> -> ->. by exists (py "_"), (py "q0"), Direction.STOP.
  - cbn. by apply list_elem_of_singleton.
  - by vm_compute.
Defined.

(** ** The handler [load_machine] where the document loads *)

(** On [wide_document] the document loads and [get_symbols] raises: the
    error is shown with the loaded machine already the active one. *)
Example load_machine_wide_document (machine : TuringMachine.t) :
  ∃ m h', load_from_file wide_document [] = (Ok m, h')
    ∧ TuringMachineGUI.load_machine machine wide_document []
      = (Some TypeError, m, h').
Proof. eexists _, _. split; vm_compute; reflexivity. Qed.

(** On [flip_document] no error is shown; the loaded machine is the
    active one, and the store holds the copy of the tape that
    [update_display] took. *)
Example load_machine_flip_document (machine : TuringMachine.t) :
  ∃ m h', load_from_file flip_document [] = (Ok m, h')
    ∧ TuringMachineGUI.load_machine machine flip_document []
      = (None, m, h' ++ [[py "0"; py "0"]]).
Proof. eexists _, _. split; vm_compute; reflexivity. Qed.
